(** * express-api-throttle: fixed-window rate limiting

  A shallow embedding of [MemoryStore], [RedisStore] and the [throttle]
  middleware factory of the express-api-throttle package, followed by the
  properties of the window counter, the admission decision and the
  middleware's error paths.

  Numbers are JavaScript numbers that hold integers (hit counts, epoch
  milliseconds, limits): they are modelled as [Z].  Objects held in a [Map]
  are references into a heap, so that the sharing between the store and the
  record it hands out is visible. *)

From stdpp Require Import gmap strings list fin_maps.

Local Open Scope Z_scope.

(** ** JavaScript preliminaries *)

Module Js.

(** A call either returns a value or throws. *)
Inductive Result (A : Type) : Type :=
| Ok (a : A)
| Throw (e : string).
Global Arguments Ok {A} a.
Global Arguments Throw {A} e.

Definition bind {A B : Type} (r : Result A) (k : A → Result B) : Result B :=
  match r with
  | Ok a => k a
  | Throw e => Throw e
  end.

(** [Math.ceil(x / d)] for an integer [x] and a positive integer [d]. *)
Definition ceil_div (x d : Z) : Z := - ((- x) `div` d).

(** [a > b] on numbers. *)
Definition gt (a b : Z) : bool := bool_decide (b < a).

End Js.

Global Instance Result_bind : MBind Js.Result := λ A B k r, Js.bind r k.

(** The object literal [{ hits, resetTime }]. *)
Record WindowRecord : Type := mkRecord { hits : Z; resetTime : Z }.

Global Instance WindowRecord_eq_dec : EqDecision WindowRecord.
Proof. solve_decision. Defined.

(** ** class MemoryStore *)

Module MemoryStore.

(** [this.store] is a [Map] from keys to record objects.  A record object
    is a reference; [heap] gives the fields of every live object. *)
Record t : Type := mk {
  store : gmap string positive;
  heap : gmap positive WindowRecord
}.

(** [constructor()]: an empty [Map].  The interval timer it installs calls
    [cleanup] every [sweepIntervalMs]. *)
Definition new : t := {| store := ∅; heap := ∅ |}.
Definition sweepIntervalMs : Z := 5 * 60 * 1000.

(** Every key of the [Map] is bound to an object. *)
Definition wf (s : t) : Prop :=
  ∀ key l, store s !! key = Some l → is_Some (heap s !! l).

(** Every record object counts at least one hit. *)
Definition counted (s : t) : Prop :=
  ∀ l r, heap s !! l = Some r → 1 ≤ hits r.

(** [get(key)]: [null] when the key is absent, else the stored object. *)
Definition get (s : t) (key : string) : option positive :=
  match store s !! key with
  | None => None
  | Some l => Some l
  end.

(** Reading the fields of the object a reference points to. *)
Definition deref (s : t) (l : positive) : option WindowRecord := heap s !! l.

(** What [get] followed by a field read observes. *)
Definition peek (s : t) (key : string) : option WindowRecord :=
  match get s key with
  | None => None
  | Some l => deref s l
  end.

(** [increment(key, windowMs)] with [now = Date.now()].  It returns the
    object that is (now) in the [Map], and the store after the call.  A
    [Map] entry that is not an object makes the field access throw. *)
Definition increment (s : t) (now : Z) (key : string) (windowMs : Z)
  : Js.Result (positive * t) :=
  let resetTime' := now + windowMs in
  match store s !! key with
  | None =>
      let l := fresh (dom (heap s)) in
      let record := {| hits := 1; resetTime := resetTime' |} in
      Js.Ok (l, {| store := <[key := l]> (store s);
                   heap := <[l := record]> (heap s) |})
  | Some l =>
      match heap s !! l with
      | None => Js.Throw "TypeError"
      | Some record =>
          if Js.gt now (resetTime record)
          then Js.Ok (l, {| store := store s;
                            heap := <[l := {| hits := 1; resetTime := resetTime' |}]> (heap s) |})
          else Js.Ok (l, {| store := store s;
                            heap := <[l := {| hits := hits record + 1;
                                              resetTime := resetTime record |}]> (heap s) |})
      end
  end.

(** The test of the sweep's loop body: [now > record.resetTime].  Entries
    of the [Map] are objects ([wf]); for an entry that is not, the test has
    no value and the entry is left alone. *)
Definition expired (s : t) (now : Z) (l : positive) : bool :=
  match heap s !! l with
  | Some record => Js.gt now (resetTime record)
  | None => false
  end.

(** [cleanup()] with [now = Date.now()]: every entry whose record has
    [now > record.resetTime] is deleted from the [Map]. *)
Definition cleanup (s : t) (now : Z) : t :=
  {| store := filter (λ e, expired s now e.2 = false) (store s);
     heap := heap s |}.

(** The caller of [increment] or [get] assigns to the fields of the object
    it was handed. *)
Definition mutate (s : t) (l : positive) (r : WindowRecord) : t :=
  {| store := store s; heap := <[l := r]> (heap s) |}.

(** Calls of [increment] for one key, made at the times [ts] in turn.  The
    body of [increment] has no [await]: a call runs to its end before the
    event loop starts the next one, so calls made together run one after
    the other in some order. *)
Fixpoint replay (s : t) (key : string) (windowMs : Z) (ts : list Z)
  : Js.Result t :=
  match ts with
  | [] => Js.Ok s
  | now :: rest =>
      match increment s now key windowMs with
      | Js.Ok (_, s') => replay s' key windowMs rest
      | Js.Throw e => Js.Throw e
      end
  end.

End MemoryStore.

(** ** class RedisStore *)

Module RedisStore.

(** The node-redis client the store is constructed with.  [C] is the state
    of the server behind it.  Each command is processed at the server's
    time [t]; the value stored under a key is the JSON text of a record,
    which [JSON.parse] reads back as a fresh object with the same fields, so
    it is represented by the record it encodes.  [client_get] gives [None]
    for the [null] reply. *)
Class Client (C : Type) : Type := {
  client_get : C → Z → string → Js.Result (option WindowRecord);
  client_setEx : C → Z → string → Z → WindowRecord → Js.Result C
}.

(** The template literal [`throttle:${key}`]. *)
Definition redisKey (key : string) : string := "throttle:" +:+ key.

Section with_client.
Context {C : Type} `{!Client C}.

(** [get(key)]. *)
Definition get (c : C) (t : Z) (key : string) : Js.Result (option WindowRecord) :=
  client_get c t (redisKey key).

(** The record [increment] computes from the reply [data] of the read. *)
Definition next_record (now windowMs : Z) (data : option WindowRecord)
  : WindowRecord :=
  match data with
  | None => {| hits := 1; resetTime := now + windowMs |}
  | Some record =>
      if Js.gt now (resetTime record)
      then {| hits := 1; resetTime := now + windowMs |}
      else {| hits := hits record + 1; resetTime := resetTime record |}
  end.

(** The write that ends [increment]: [setEx(redisKey, ttl, JSON.stringify(record))]. *)
Definition write_back (c : C) (t now : Z) (key : string) (record : WindowRecord)
  : Js.Result C :=
  let ttl := Js.ceil_div (resetTime record - now) 1000 in
  client_setEx c t (redisKey key) ttl record.

(** [increment(key, windowMs)] run without interruption, with
    [now = Date.now()]: both commands reach the server at time [now]. *)
Definition increment (c : C) (now : Z) (key : string) (windowMs : Z)
  : Js.Result (WindowRecord * C) :=
  data ← client_get c now (redisKey key);
  let record := next_record now windowMs data in
  c' ← write_back c now now key record;
  Js.Ok (record, c').

(** *** Interleaved calls

    [increment] is an [async] function with two [await]s.  A call in flight
    is at its start, or suspended on the read with [now] already taken, or
    finished. *)
Inductive Call : Type :=
| Start (key : string) (windowMs : Z)
| AwaitingWrite (key : string) (windowMs : Z) (now : Z) (data : option WindowRecord)
| Returned (record : WindowRecord)
| Rejected (e : string).

(** One call runs from where it is suspended to its next [await], the
    command it issues being processed at time [t]. *)
Definition advance (c : C) (t : Z) (k : Call) : Call * C :=
  match k with
  | Start key windowMs =>
      match client_get c t (redisKey key) with
      | Js.Ok data => (AwaitingWrite key windowMs t data, c)
      | Js.Throw e => (Rejected e, c)
      end
  | AwaitingWrite key windowMs now data =>
      let record := next_record now windowMs data in
      match write_back c t now key record with
      | Js.Ok c' => (Returned record, c')
      | Js.Throw e => (Rejected e, c)
      end
  | Returned _ | Rejected _ => (k, c)
  end.

(** The event loop resumes call [i] at time [t]. *)
Definition resume (st : list Call * C) (it : nat * Z) : list Call * C :=
  match st.1 !! it.1 with
  | None => st
  | Some k =>
      let '(k', c') := advance st.2 it.2 k in
      (<[it.1 := k']> st.1, c')
  end.

Definition run (st : list Call * C) (schedule : list (nat * Z)) : list Call * C :=
  foldl resume st schedule.

End with_client.

(** Modelled from the spec: the Redis server behind the client, which is not
    part of the package.  It is a key-value store with native expiry: a value
    written with a TTL of [ttl] seconds at time [t] is reclaimed by the store
    itself once [t + 1000 * ttl] is reached; an unreachable store fails every
    command. *)
Record Server : Type := mkServer {
  db : gmap string (WindowRecord * Z);
  reachable : bool
}.

Definition server_get (c : Server) (t : Z) (k : string)
  : Js.Result (option WindowRecord) :=
  if reachable c then
    match db c !! k with
    | Some (v, expiresAt) => if bool_decide (t < expiresAt) then Js.Ok (Some v) else Js.Ok None
    | None => Js.Ok None
    end
  else Js.Throw "StoreUnavailable".

Definition server_setEx (c : Server) (t : Z) (k : string) (ttl : Z) (v : WindowRecord)
  : Js.Result Server :=
  if reachable c then
    Js.Ok {| db := <[k := (v, t + 1000 * ttl)]> (db c); reachable := true |}
  else Js.Throw "StoreUnavailable".

Global Instance Server_client : Client Server :=
  {| client_get := server_get; client_setEx := server_setEx |}.

End RedisStore.

(** ** The store interface of the middleware

    [throttle] only calls [config.store.increment(key, windowMs)] and then
    reads [hits] and [resetTime] of what it returns. *)

Class Store (S : Type) : Type :=
  store_increment : S → Z → string → Z → Js.Result (WindowRecord * S).

(** [MemoryStore]: the fields are read through the returned reference.
    Here they are read as soon as [increment] has returned, which is what
    the middleware reads when it resumes from its [await] before any other
    call of [increment] for the key has run.  [Overlap] below has the calls
    that resume later. *)
Global Instance MemoryStore_Store : Store MemoryStore.t := λ s now key windowMs,
  match MemoryStore.increment s now key windowMs with
  | Js.Ok (l, s') =>
      match MemoryStore.deref s' l with
      | Some record => Js.Ok (record, s')
      | None => Js.Throw "TypeError"
      end
  | Js.Throw e => Js.Throw e
  end.

Global Instance RedisStore_Store {C : Type} `{!RedisStore.Client C} : Store C :=
  λ c now key windowMs, RedisStore.increment c now key windowMs.

(** [config.store] is the default [new MemoryStore()] or the store given in
    the options. *)
Global Instance sum_Store {S : Type} `{!Store S} : Store (MemoryStore.t + S) :=
  λ s now key windowMs,
  match s with
  | inl m =>
      match store_increment m now key windowMs with
      | Js.Ok (record, m') => Js.Ok (record, inl m')
      | Js.Throw e => Js.Throw e
      end
  | inr u =>
      match store_increment u now key windowMs with
      | Js.Ok (record, u') => Js.Ok (record, inr u')
      | Js.Throw e => Js.Throw e
      end
  end.

(** ** function throttle(options) *)

(** What the middleware reads of an Express request. *)
Record Request : Type := mkRequest { ip : string; path : string }.

(** How the middleware function ends. *)
Inductive Outcome : Type :=
| Next                                              (* [next()] *)
| NextErr (err : string)                            (* [next(err)] *)
| Json (status : Z) (success : bool) (message : string)
                                                    (* [res.status(..).json({..})] *)
| Handled                                           (* [config.handler(req, res, next)] *)
| Uncaught (err : string).                          (* the returned promise rejects *)

(** How a call of [config.handler(req, res, next)] ends.  The middleware
    returns its result without [await]: a handler that throws is caught by
    the [try] block, while a handler that returns a promise hands that
    promise to the caller of the middleware. *)
Inductive HandlerResult : Type :=
| HReturns                    (* a value, or a promise that is fulfilled *)
| HThrows (err : string)      (* a synchronous [throw] *)
| HRejects (err : string).    (* a promise that is rejected *)

Section with_store.
Context {S : Type} `{!Store S}.

(** The [options] object.  A field is [None] when the key is not in the
    object; [other] holds the keys the factory has no default for. *)
Record Options : Type := mkOptions {
  o_windowMs : option Z;
  o_max : option Z;
  o_message : option string;
  o_statusCode : option Z;
  o_keyGenerator : option (Request → Js.Result string);
  o_skip : option (Request → Js.Result bool);
  o_store : option S;
  o_headers : option bool;
  o_handler : option (option (Request → HandlerResult));
  o_onLimitReached : option (option (Request → Js.Result unit));
  o_other : list (string * bool)
}.

(** [config = { ...defaults, ...options }]. *)
Record Config : Type := mkConfig {
  windowMs : Z;
  max : Z;
  message : string;
  statusCode : Z;
  keyGenerator : Request → Js.Result string;
  skip : Request → Js.Result bool;
  store : MemoryStore.t + S;
  headers : bool;
  handler : option (Request → HandlerResult);
  onLimitReached : option (Request → Js.Result unit);
  other : list (string * bool)
}.

(** The factory.  Its body builds [defaults], spreads [options] over them
    and returns the middleware closure; no statement of it throws. *)
Definition throttle (options : Options) : Js.Result Config :=
  Js.Ok {|
    windowMs := default (60 * 1000) (o_windowMs options);
    max := default 60 (o_max options);
    message := default "Too many requests, please try again later." (o_message options);
    statusCode := default 429 (o_statusCode options);
    keyGenerator := default (λ req, Js.Ok (ip req)) (o_keyGenerator options);
    skip := default (λ _, Js.Ok false) (o_skip options);
    store := match o_store options with
             | Some s => inr s
             | None => inl MemoryStore.new
             end;
    headers := default true (o_headers options);
    handler := default None (o_handler options);
    onLimitReached := default None (o_onLimitReached options);
    other := o_other options
  |}.

(** What a call of the middleware leaves behind: how it ended, the headers
    set on [res], and the store. *)
Record Reply : Type := mkReply {
  outcome : Outcome;
  resHeaders : gmap string Z;
  store_after : MemoryStore.t + S
}.

(** The three headers set after a successful [increment]. *)
Definition limit_headers (config : Config) (record : WindowRecord)
  : gmap string Z :=
  if headers config then
    <["X-RateLimit-Reset" := Js.ceil_div (resetTime record) 1000]>
      (<["X-RateLimit-Remaining" := Z.max 0 (max config - hits record)]>
         (<["X-RateLimit-Limit" := max config]> ∅))
  else ∅.

(** The branch taken when [record.hits > config.max]; [now'] is the
    [Date.now()] of the [Retry-After] header.  An error thrown by
    [onLimitReached] or by the handler is caught and passed to [next]; the
    promise the handler returns is returned as it is. *)
Definition limit_exceeded (config : Config) (st : MemoryStore.t + S)
    (now' : Z) (req : Request) (record : WindowRecord) (hs : gmap string Z)
  : Reply :=
  match match onLimitReached config with
        | Some f => f req
        | None => Js.Ok ()
        end with
  | Js.Throw e => mkReply (NextErr e) hs st
  | Js.Ok _ =>
      let hs' :=
        if headers config
        then <["Retry-After" := Js.ceil_div (resetTime record - now') 1000]> hs
        else hs in
      match handler config with
      | Some h =>
          match h req with
          | HReturns => mkReply Handled hs' st
          | HThrows e => mkReply (NextErr e) hs' st
          | HRejects e => mkReply (Uncaught e) hs' st
          end
      | None => mkReply (Json (statusCode config) false (message config)) hs' st
      end
  end.

(** The middleware [async function(req, res, next)], called with the store
    in state [st] and run to its end with no other call in between; [now] is
    the [Date.now()] inside [increment] and [now'] the later one of the
    [Retry-After] header. *)
Definition middleware (config : Config) (st : MemoryStore.t + S)
    (now now' : Z) (req : Request) : Reply :=
  match skip config req with
  | Js.Throw e => mkReply (Uncaught e) ∅ st
  | Js.Ok true => mkReply Next ∅ st
  | Js.Ok false =>
      match keyGenerator config req with
      | Js.Throw e => mkReply (Uncaught e) ∅ st
      | Js.Ok key =>
          match store_increment st now key (windowMs config) with
          | Js.Throw e => mkReply (NextErr e) ∅ st
          | Js.Ok (record, st') =>
              let hs := limit_headers config record in
              if Js.gt (hits record) (max config)
              then limit_exceeded config st' now' req record hs
              else mkReply Next hs st'
          end
      end
  end.

(** Requests served one after the other: each call of the middleware has
    resumed from its [await] and ended before the next one starts, as for
    requests that reach the middleware in different turns of the event loop.
    Each request comes with the two clock readings of its call.
    [Overlap.run] below has the general case, and gives these replies on
    [Overlap.one_after_the_other]. *)
Fixpoint serve (config : Config) (st : MemoryStore.t + S)
    (reqs : list (Z * Z * Request)) : list Reply :=
  match reqs with
  | [] => []
  | (now, now', req) :: rest =>
      let r := middleware config st now now' req in
      r :: serve config (store_after r) rest
  end.

(** Requests for one key, all counted and all made while the record [r] of
    the key is within its window. *)
Definition in_window (config : Config) (key : string) (r : WindowRecord)
    (reqs : list (Z * Z * Request)) : Prop :=
  Forall (λ e, e.1.1 ≤ resetTime r ∧
               skip config e.2 = Js.Ok false ∧
               keyGenerator config e.2 = Js.Ok key) reqs.

End with_store.

(** ** Configurations used in the examples *)

(** A limiter of 2 hits per second on the default store, as [throttle]
    builds it from [{ windowMs: 1000, max: 2 }]. *)
Definition two_per_second : @Config RedisStore.Server :=
  {| windowMs := 1000; max := 2;
     message := "Too many requests, please try again later.";
     statusCode := 429;
     keyGenerator := λ req, Js.Ok (ip req);
     skip := λ _, Js.Ok false;
     store := inl MemoryStore.new;
     headers := true; handler := None; onLimitReached := None; other := [] |}.


(** The degenerate limiter of [{ windowMs: 1000, max: 0 }]. *)
Definition never_admits : @Config RedisStore.Server :=
  {| windowMs := 1000; max := 0;
     message := "Too many requests, please try again later.";
     statusCode := 429;
     keyGenerator := λ req, Js.Ok (ip req);
     skip := λ _, Js.Ok false;
     store := inl MemoryStore.new;
     headers := true; handler := None; onLimitReached := None; other := [] |}.

(** ** Calls of the middleware that overlap *)

Module Overlap.

(** A call of the middleware on the default store.  The middleware is an
    [async] function with one [await]: when called it runs up to
    [await config.store.increment(key, config.windowMs)], and it runs from
    there to its end when the event loop resumes it.  [MemoryStore.increment]
    has no [await]: when the middleware suspends, the body of [increment]
    has run and its promise is settled, with the record object of the key
    or with an error.  The fields of that object are read on resumption. *)
Inductive Call : Type :=
| Suspended (req : Request) (settled : Js.Result positive)
| Replied (o : Outcome) (hs : gmap string Z).

(** What the event loop does next: a request reaches the middleware, or
    call number [i] is resumed. *)
Inductive Event : Type :=
| Arrive (now : Z) (req : Request)
| Resume (i : nat) (now' : Z).

Section with_store.
Context {S : Type} `{!Store S}.

(** The first turn of a call, up to the [await]. *)
Definition start (config : @Config S) (m : MemoryStore.t) (now : Z) (req : Request)
  : Call * MemoryStore.t :=
  match skip config req with
  | Js.Throw e => (Replied (Uncaught e) ∅, m)
  | Js.Ok true => (Replied Next ∅, m)
  | Js.Ok false =>
      match keyGenerator config req with
      | Js.Throw e => (Replied (Uncaught e) ∅, m)
      | Js.Ok key =>
          match MemoryStore.increment m now key (windowMs config) with
          | Js.Ok (l, m') => (Suspended req (Js.Ok l), m')
          | Js.Throw e => (Suspended req (Js.Throw e), m)
          end
      end
  end.

(** The second turn, from the [await] on, with the store as it is by then. *)
Definition finish (config : @Config S) (m : MemoryStore.t) (now' : Z)
    (req : Request) (settled : Js.Result positive) : Outcome * gmap string Z :=
  match settled with
  | Js.Throw e => (NextErr e, ∅)
  | Js.Ok l =>
      match MemoryStore.deref m l with
      | None => (NextErr "TypeError", ∅)
      | Some record =>
          let hs := limit_headers config record in
          if Js.gt (hits record) (max config)
          then
            let r := limit_exceeded config (inl m) now' req record hs in
            (outcome r, resHeaders r)
          else (Next, hs)
      end
  end.

Definition step (config : @Config S) (st : MemoryStore.t * list Call) (ev : Event)
  : MemoryStore.t * list Call :=
  match ev with
  | Arrive now req =>
      let '(c, m') := start config st.1 now req in
      (m', st.2 ++ [c])
  | Resume i now' =>
      match st.2 !! i with
      | Some (Suspended req settled) =>
          let '(o, hs) := finish config st.1 now' req settled in
          (st.1, <[i := Replied o hs]> st.2)
      | _ => st
      end
  end.

(** The event loop resumes suspended calls in the order in which they
    suspended; [run] takes the events in any order. *)
Definition run (config : @Config S) (st : MemoryStore.t * list Call)
    (events : list Event) : MemoryStore.t * list Call :=
  foldl (step config) st events.

End with_store.

(** The events of requests served one after the other, the first of them
    being call number [i]. *)
Fixpoint one_after_the_other (i : nat) (reqs : list (Z * Z * Request)) : list Event :=
  match reqs with
  | [] => []
  | (now, now', req) :: rest =>
      Arrive now req :: Resume i now' :: one_after_the_other (Datatypes.S i) rest
  end.

(** No request of the events is skipped. *)
Definition all_counted {S : Type} `{!Store S} (config : @Config S)
    (events : list Event) : Prop :=
  Forall (λ ev, match ev with
                | Arrive _ req => skip config req = Js.Ok false
                | Resume _ _ => True
                end) events.

End Overlap.

(** ** The life of a store, and of a limiter *)

Module Trace.

(** No record object is held under two keys of the [Map]. *)
Definition separate (s : MemoryStore.t) : Prop :=
  ∀ k1 k2 l,
    MemoryStore.store s !! k1 = Some l → MemoryStore.store s !! k2 = Some l → k1 = k2.

(** What happens to a [MemoryStore] once constructed: calls of [increment],
    and firings of the interval timer, each with its clock reading. *)
Inductive Op : Type :=
| Increment (now : Z) (key : string) (windowMs : Z)
| Sweep (now : Z).

Definition perform (s : MemoryStore.t) (o : Op) : Js.Result MemoryStore.t :=
  match o with
  | Increment now key windowMs =>
      match MemoryStore.increment s now key windowMs with
      | Js.Ok (_, s') => Js.Ok s'
      | Js.Throw e => Js.Throw e
      end
  | Sweep now => Js.Ok (MemoryStore.cleanup s now)
  end.

Fixpoint exec (s : MemoryStore.t) (ops : list Op) : Js.Result MemoryStore.t :=
  match ops with
  | [] => Js.Ok s
  | o :: rest =>
      match perform s o with
      | Js.Ok s' => exec s' rest
      | Js.Throw e => Js.Throw e
      end
  end.

(** Calls of [RedisStore.increment] for one key, each run to its end before
    the next starts, at the times [ts]. *)
Fixpoint redis_replay {C : Type} `{!RedisStore.Client C} (c : C) (key : string)
    (windowMs : Z) (ts : list Z) : Js.Result C :=
  match ts with
  | [] => Js.Ok c
  | now :: rest =>
      match RedisStore.increment c now key windowMs with
      | Js.Ok (_, c') => redis_replay c' key windowMs rest
      | Js.Throw e => Js.Throw e
      end
  end.

(** The store a limiter is left with after serving [reqs]. *)
Fixpoint serve_store {S : Type} `{!Store S} (config : @Config S)
    (st : MemoryStore.t + S) (reqs : list (Z * Z * Request)) : MemoryStore.t + S :=
  match reqs with
  | [] => st
  | (now, now', req) :: rest =>
      serve_store config (store_after (middleware config st now now' req)) rest
  end.

(** The request is counted against [key]: [config.skip] returned [false]
    and [config.keyGenerator] returned [key]. *)
Definition counts_for {S : Type} `{!Store S} (config : @Config S) (key : string)
    (e : Z * Z * Request) : bool :=
  match skip config e.2 with
  | Js.Ok false =>
      match keyGenerator config e.2 with
      | Js.Ok k => bool_decide (k = key)
      | Js.Throw _ => false
      end
  | _ => false
  end.

(** What the client sees of a reply. *)
Definition visible {S : Type} `{!Store S} (r : @Reply S) : Outcome * gmap string Z :=
  (outcome r, resHeaders r).

End Trace.

(** * Properties *)

(** ** Arithmetic of [Math.ceil] and [>] *)

Lemma gt_true (a b : Z) : Js.gt a b = true ↔ b < a.
Proof. unfold Js.gt. apply bool_decide_eq_true. Qed.

Lemma gt_false (a b : Z) : Js.gt a b = false ↔ a ≤ b.
Proof. unfold Js.gt. rewrite bool_decide_eq_false. lia. Qed.

Lemma ceil_div_pos (x : Z) : 0 < Js.ceil_div x 1000 ↔ 0 < x.
Proof.
  unfold Js.ceil_div. split; intros H.
  - destruct (decide (0 < x)) as [|Hn]; [done|].
    assert (0 ≤ (- x) `div` 1000) by (apply Z.div_pos; lia). lia.
  - assert ((- x) `div` 1000 < 0) by (apply Z.div_lt_upper_bound; lia). lia.
Qed.

Lemma ceil_div_nonneg (x : Z) : 0 ≤ Js.ceil_div x 1000 ↔ -1000 < x.
Proof.
  unfold Js.ceil_div. split; intros H.
  - destruct (decide (-1000 < x)) as [|Hn]; [done|].
    assert (1 ≤ (- x) `div` 1000) by (apply Z.div_le_lower_bound; lia). lia.
  - assert ((- x) `div` 1000 < 1) by (apply Z.div_lt_upper_bound; lia). lia.
Qed.

(** ** MemoryStore: one call of [increment] *)

Module MemoryStoreFacts.
Import MemoryStore.

Lemma increment_absent (s : t) (now : Z) (key : string) (w : Z) :
  store s !! key = None →
  increment s now key w =
    Js.Ok (fresh (dom (heap s)),
           {| store := <[key := fresh (dom (heap s))]> (store s);
              heap := <[fresh (dom (heap s)) := mkRecord 1 (now + w)]> (heap s) |}).
Proof. intros H. unfold increment. by rewrite H. Qed.

Lemma increment_expired (s : t) (now : Z) (key : string) (w : Z) l r :
  store s !! key = Some l → heap s !! l = Some r → resetTime r < now →
  increment s now key w =
    Js.Ok (l, {| store := store s;
                 heap := <[l := mkRecord 1 (now + w)]> (heap s) |}).
Proof.
  intros Hk Hl Hlt. unfold increment. rewrite Hk, Hl.
  by rewrite (proj2 (gt_true _ _) Hlt).
Qed.

Lemma increment_live (s : t) (now : Z) (key : string) (w : Z) l r :
  store s !! key = Some l → heap s !! l = Some r → now ≤ resetTime r →
  increment s now key w =
    Js.Ok (l, {| store := store s;
                 heap := <[l := mkRecord (hits r + 1) (resetTime r)]> (heap s) |}).
Proof.
  intros Hk Hl Hle. unfold increment. rewrite Hk, Hl.
  by rewrite (proj2 (gt_false _ _) Hle).
Qed.

Lemma peek_Some (s : t) (key : string) (r : WindowRecord) :
  peek s key = Some r ↔ ∃ l, store s !! key = Some l ∧ heap s !! l = Some r.
Proof.
  unfold peek, get, deref. destruct (store s !! key) as [l|].
  - split; [eauto|]. by intros (l' & [= <-] & Hr).
  - split; [done|]. by intros (l' & Hl & _).
Qed.

Lemma peek_None (s : t) (key : string) :
  wf s → peek s key = None ↔ store s !! key = None.
Proof.
  intros Hwf. unfold peek, get, deref.
  destruct (store s !! key) as [l|] eqn:Hk; [|done].
  destruct (Hwf _ _ Hk) as [r Hr]. rewrite Hr. naive_solver.
Qed.

Lemma wf_new : wf new.
Proof. intros key l H. simpl in H. by rewrite lookup_empty in H. Qed.

Lemma wf_increment (s s' : t) (now : Z) (key : string) (w : Z) l :
  wf s → increment s now key w = Js.Ok (l, s') → wf s'.
Proof.
  intros Hwf. unfold increment.
  destruct (store s !! key) as [l0|] eqn:Hk.
  - destruct (heap s !! l0) as [r|] eqn:Hl; [|done].
    destruct (Js.gt now (resetTime r)); intros [= <- <-]; intros k' l' Hk'; simpl in *;
      (destruct (decide (l0 = l')) as [->|Hne];
        [rewrite lookup_insert_eq; eauto | rewrite lookup_insert_ne by done; eauto]).
  - intros [= <- <-]. intros k' l' Hk'. simpl in *.
    destruct (decide (fresh (dom (heap s)) = l')) as [->|Hne].
    + rewrite lookup_insert_eq; eauto.
    + rewrite lookup_insert_ne by done.
      destruct (decide (key = k')) as [->|Hnk].
      * rewrite lookup_insert_eq in Hk'. congruence.
      * rewrite lookup_insert_ne in Hk' by done. eauto.
Qed.

Lemma wf_cleanup (s : t) (now : Z) : wf s → wf (cleanup s now).
Proof.
  intros Hwf key l H. unfold cleanup in *. simpl in *.
  apply map_lookup_filter_Some in H as [H _]. eauto.
Qed.

Lemma wf_mutate (s : t) l r : wf s → wf (mutate s l r).
Proof.
  intros Hwf key l' H. unfold mutate in *. simpl in *.
  destruct (decide (l = l')) as [->|Hne].
  - rewrite lookup_insert_eq; eauto.
  - rewrite lookup_insert_ne by done. eauto.
Qed.

(** A call on a well-formed store never throws. *)
Lemma increment_total (s : t) (now : Z) (key : string) (w : Z) :
  wf s → ∃ l s', increment s now key w = Js.Ok (l, s').
Proof.
  intros Hwf. unfold increment.
  destruct (store s !! key) as [l0|] eqn:Hk; [|eauto].
  destruct (Hwf _ _ Hk) as [r Hr]. rewrite Hr.
  destruct (Js.gt now (resetTime r)); eauto.
Qed.

Lemma counted_new : counted new.
Proof. intros l r H. simpl in H. by rewrite lookup_empty in H. Qed.

Lemma counted_insert (s : t) l r :
  counted s → 1 ≤ hits r →
  counted {| store := store s; heap := <[l := r]> (heap s) |}.
Proof.
  intros Hc Hr l' r' H. simpl in H.
  destruct (decide (l = l')) as [->|Hne].
  - rewrite lookup_insert_eq in H. by injection H as <-.
  - rewrite lookup_insert_ne in H by done. eauto.
Qed.

(** [increment] keeps every count at one or more, and returns such a
    record. *)
Lemma increment_counted (s s' : t) (now : Z) (key : string) (w : Z) l :
  counted s → increment s now key w = Js.Ok (l, s') →
  counted s' ∧ ∃ r, heap s' !! l = Some r ∧ 1 ≤ hits r.
Proof.
  intros Hc. unfold increment.
  destruct (store s !! key) as [l0|] eqn:Hk.
  - destruct (heap s !! l0) as [r|] eqn:Hl; [|done].
    pose proof (Hc _ _ Hl) as Hr.
    destruct (Js.gt now (resetTime r)); intros [= <- <-].
    + split; [by apply counted_insert|]. eexists. simpl.
      split; [apply lookup_insert_eq|done].
    + split; [apply counted_insert; [done|simpl; lia]|]. eexists. simpl.
      split; [apply lookup_insert_eq|simpl; lia].
  - intros [= <- <-]. split.
    + intros l' r' H. simpl in H.
      apply lookup_insert_Some in H as [[_ <-]|[_ H]]; [done|eauto].
    + eexists. simpl. split; [apply lookup_insert_eq|done].
Qed.

End MemoryStoreFacts.

(** ** The contract of [increment] *)

(** C2.  For every key and positive window duration, [increment] creates a
    fresh record with [hits = 1] and [resetTime = now + windowMs] when no
    record exists for the key or the existing record's [resetTime] has
    passed; otherwise it adds exactly 1 to [hits] and leaves [resetTime]
    unchanged.  It returns the post-increment record, which is the one the
    store holds afterwards.  This is so for [MemoryStore] (first conjunct)
    and for [RedisStore] over any client whose read replies [data] and
    whose write succeeds (second conjunct). *)
Theorem increment_contract {C : Type} `{!RedisStore.Client C}
    (s : MemoryStore.t) (c : C) (now : Z) (key : string) (w : Z)
    (data : option WindowRecord) :
  0 < w →
  MemoryStore.wf s →
  RedisStore.client_get c now (RedisStore.redisKey key) = Js.Ok data →
  (∀ ttl record, ∃ c',
      RedisStore.client_setEx c now (RedisStore.redisKey key) ttl record = Js.Ok c') →
  (∃ l s',
      MemoryStore.increment s now key w = Js.Ok (l, s') ∧
      MemoryStore.get s' key = Some l ∧
      ∃ record, MemoryStore.deref s' l = Some record ∧
        (MemoryStore.peek s key = None ∨
         (∃ old, MemoryStore.peek s key = Some old ∧ resetTime old < now) →
         record = mkRecord 1 (now + w)) ∧
        (∀ old, MemoryStore.peek s key = Some old → now ≤ resetTime old →
         record = mkRecord (hits old + 1) (resetTime old)))
  ∧
  (∃ record c',
      RedisStore.increment c now key w = Js.Ok (record, c') ∧
      RedisStore.client_setEx c now (RedisStore.redisKey key)
        (Js.ceil_div (resetTime record - now) 1000) record = Js.Ok c' ∧
      (data = None ∨ (∃ old, data = Some old ∧ resetTime old < now) →
       record = mkRecord 1 (now + w)) ∧
      (∀ old, data = Some old → now ≤ resetTime old →
       record = mkRecord (hits old + 1) (resetTime old))).
Proof.
  intros _ Hwf Hget Hset. split.
  - destruct (MemoryStore.store s !! key) as [l|] eqn:Hk.
    + destruct (Hwf _ _ Hk) as [old Hold].
      assert (Hpeek : MemoryStore.peek s key = Some old)
        by (apply MemoryStoreFacts.peek_Some; eauto).
      destruct (decide (resetTime old < now)) as [Hlt|Hge].
      * eexists l, _. split; [by eapply MemoryStoreFacts.increment_expired|].
        unfold MemoryStore.get, MemoryStore.deref; simpl. rewrite Hk.
        split; [done|]. eexists. split; [apply lookup_insert_eq|].
        split; [done|]. intros old' Hold' Hle. rewrite Hpeek in Hold'.
        injection Hold' as <-. lia.
      * eexists l, _. split; [eapply MemoryStoreFacts.increment_live; eauto; lia|].
        unfold MemoryStore.get, MemoryStore.deref; simpl. rewrite Hk.
        split; [done|]. eexists. split; [apply lookup_insert_eq|]. split.
        -- intros [Hnone|(old' & Hold' & Hlt)]; rewrite Hpeek in *; [done|].
           injection Hold' as <-. lia.
        -- intros old' Hold' _. rewrite Hpeek in Hold'. by injection Hold' as <-.
    + assert (Hpeek : MemoryStore.peek s key = None)
        by (by apply MemoryStoreFacts.peek_None).
      eexists _, _. split; [by apply MemoryStoreFacts.increment_absent|].
      unfold MemoryStore.get, MemoryStore.deref; simpl.
      rewrite lookup_insert_eq. split; [done|].
      eexists. split; [apply lookup_insert_eq|]. split; [done|].
      intros old Hold. by rewrite Hpeek in Hold.
  - set (record := RedisStore.next_record now w data).
    destruct (Hset (Js.ceil_div (resetTime record - now) 1000) record) as [c' Hc'].
    exists record, c'. split; [|split; [done|]].
    + unfold RedisStore.increment. rewrite Hget. simpl.
      unfold RedisStore.write_back. fold record. by rewrite Hc'.
    + subst record. unfold RedisStore.next_record. split.
      * intros [->|(old & -> & Hlt)]; [done|].
        by rewrite (proj2 (gt_true _ _) Hlt).
      * intros old -> Hle. by rewrite (proj2 (gt_false _ _) Hle).
Qed.

(** The contract at a third hit of a live window, for both stores. *)
Lemma increment_contract_witness :
  let s := {| MemoryStore.store := {["ip1" := 1%positive]};
              MemoryStore.heap := {[1%positive := mkRecord 2 1000]} |} in
  let c := RedisStore.mkServer
             {[RedisStore.redisKey "ip1" := (mkRecord 2 1000, 1000)]} true in
  (∃ l s',
      MemoryStore.increment s 400 "ip1" 1000 = Js.Ok (l, s') ∧
      MemoryStore.get s' "ip1" = Some l ∧
      ∃ record, MemoryStore.deref s' l = Some record ∧
        (MemoryStore.peek s "ip1" = None ∨
         (∃ old, MemoryStore.peek s "ip1" = Some old ∧ resetTime old < 400) →
         record = mkRecord 1 (400 + 1000)) ∧
        (∀ old, MemoryStore.peek s "ip1" = Some old → 400 ≤ resetTime old →
         record = mkRecord (hits old + 1) (resetTime old)))
  ∧
  (∃ record c',
      RedisStore.increment c 400 "ip1" 1000 = Js.Ok (record, c') ∧
      RedisStore.client_setEx c 400 (RedisStore.redisKey "ip1")
        (Js.ceil_div (resetTime record - 400) 1000) record = Js.Ok c' ∧
      (Some (mkRecord 2 1000) = None ∨
       (∃ old, Some (mkRecord 2 1000) = Some old ∧ resetTime old < 400) →
       record = mkRecord 1 (400 + 1000)) ∧
      (∀ old, Some (mkRecord 2 1000) = Some old → 400 ≤ resetTime old →
       record = mkRecord (hits old + 1) (resetTime old))).
Proof.
  intros s c.
  apply (increment_contract s c 400 "ip1" 1000 (Some (mkRecord 2 1000))).
  - lia.
  - intros key l Hk. subst s. simpl in *.
    apply lookup_singleton_Some in Hk as [_ <-].
    exists (mkRecord 2 1000). apply lookup_singleton_eq.
  - reflexivity.
  - intros ttl record. eexists. reflexivity.
Defined.

(** ** What [get], [cleanup] and the caller see of a record *)

Module SharingFacts.
Import MemoryStore MemoryStoreFacts.

(** The reference [increment] returns is the one bound to the key. *)
Lemma increment_returns_stored (s s' : t) (now : Z) (key : string) (w : Z) l :
  increment s now key w = Js.Ok (l, s') →
  store s' !! key = Some l ∧ is_Some (heap s' !! l).
Proof.
  unfold increment. destruct (store s !! key) as [l0|] eqn:Hk.
  - destruct (heap s !! l0) as [r|]; [|done].
    destruct (Js.gt now (resetTime r)); intros [= <- <-]; simpl;
      rewrite lookup_insert_eq; eauto.
  - intros [= <- <-]. simpl. rewrite !lookup_insert_eq. eauto.
Qed.

Lemma peek_mutate (s : t) (key : string) l r :
  store s !! key = Some l → peek (mutate s l r) key = Some r.
Proof.
  intros Hk. unfold peek, get, deref, mutate. simpl. rewrite Hk.
  apply lookup_insert_eq.
Qed.

Lemma peek_cleanup_expired (s : t) (now : Z) (key : string) r :
  peek s key = Some r → resetTime r < now → peek (cleanup s now) key = None.
Proof.
  intros (l & Hk & Hl)%peek_Some Hlt. unfold peek, get, cleanup. simpl.
  assert (filter (λ e, expired s now e.2 = false) (store s) !! key = None) as ->; [|done].
  apply map_lookup_filter_None. right. intros l' Hk'. simpl.
  rewrite Hk in Hk'. injection Hk' as <-. unfold expired. rewrite Hl.
  by rewrite (proj2 (gt_true _ _) Hlt).
Qed.

Lemma peek_cleanup_live (s : t) (now : Z) (key : string) r :
  peek s key = Some r → now ≤ resetTime r → peek (cleanup s now) key = Some r.
Proof.
  intros (l & Hk & Hl)%peek_Some Hle. apply peek_Some. exists l.
  unfold cleanup. simpl. split; [|done].
  apply map_lookup_filter_Some. split; [done|]. simpl.
  unfold expired. rewrite Hl. by apply gt_false.
Qed.

End SharingFacts.

(** C6.  The sweep deletes a record if and only if its [resetTime] has
    passed at sweep time: a record with [resetTime < now] is gone after
    [cleanup], a record with [now ≤ resetTime] is still there unchanged, and
    keys without a record stay without one.  In particular a record that
    [increment] has just written is retained by a sweep that fires while the
    record is within its window. *)
Theorem sweep_deletes_exactly_expired (s : MemoryStore.t) (now : Z) (key : string) :
  MemoryStore.wf s →
  (∀ r, MemoryStore.peek s key = Some r → resetTime r < now →
        MemoryStore.peek (MemoryStore.cleanup s now) key = None) ∧
  (∀ r, MemoryStore.peek s key = Some r → now ≤ resetTime r →
        MemoryStore.peek (MemoryStore.cleanup s now) key = Some r) ∧
  (MemoryStore.peek s key = None →
        MemoryStore.peek (MemoryStore.cleanup s now) key = None) ∧
  (∀ t w, ∃ l s' r,
        MemoryStore.increment s t key w = Js.Ok (l, s') ∧
        MemoryStore.deref s' l = Some r ∧
        (now ≤ resetTime r →
         MemoryStore.get (MemoryStore.cleanup s' now) key = Some l ∧
         MemoryStore.deref (MemoryStore.cleanup s' now) l = Some r)).
Proof.
  intros Hwf. split; [|split; [|split]].
  - intros r. apply SharingFacts.peek_cleanup_expired.
  - intros r. apply SharingFacts.peek_cleanup_live.
  - intros Hnone%MemoryStoreFacts.peek_None; [|done].
    unfold MemoryStore.peek, MemoryStore.get, MemoryStore.cleanup. simpl.
    assert (filter (λ e, MemoryStore.expired s now e.2 = false)
              (MemoryStore.store s) !! key = None) as ->; [|done].
    apply map_lookup_filter_None. by left.
  - intros t w.
    destruct (MemoryStoreFacts.increment_total s t key w Hwf) as (l & s' & Hinc).
    destruct (SharingFacts.increment_returns_stored _ _ _ _ _ _ Hinc) as [Hk [r Hr]].
    exists l, s', r. split; [done|]. split; [done|]. intros Hle.
    assert (Hpeek : MemoryStore.peek s' key = Some r)
      by (apply MemoryStoreFacts.peek_Some; eauto).
    pose proof (SharingFacts.peek_cleanup_live _ _ _ _ Hpeek Hle) as Hkept.
    apply MemoryStoreFacts.peek_Some in Hkept as (l' & Hk' & Hl').
    unfold MemoryStore.cleanup in Hk'. simpl in Hk', Hl'.
    apply map_lookup_filter_Some in Hk' as [Hk' _].
    rewrite Hk in Hk'. injection Hk' as <-.
    split; [|done].
    unfold MemoryStore.get, MemoryStore.cleanup. simpl.
    assert (filter (λ e, MemoryStore.expired s' now e.2 = false)
              (MemoryStore.store s') !! key = Some l) as ->; [|done].
    apply map_lookup_filter_Some. split; [done|]. simpl.
    unfold MemoryStore.expired. rewrite Hr. by apply gt_false.
Qed.

(** A sweep at time 1500 over an expired and a live record. *)
Lemma sweep_deletes_exactly_expired_witness :
  let s := {| MemoryStore.store := {["old" := 1%positive; "new" := 2%positive]};
              MemoryStore.heap := {[1%positive := mkRecord 4 1000;
                                    2%positive := mkRecord 1 2000]} |} in
  MemoryStore.peek (MemoryStore.cleanup s 1500) "old" = None ∧
  MemoryStore.peek (MemoryStore.cleanup s 1500) "new" = Some (mkRecord 1 2000).
Proof.
  intros s.
  assert (Hwf : MemoryStore.wf s).
  { intros key l Hk. subst s. simpl in *.
    apply lookup_insert_Some in Hk as [[_ <-]|[_ Hk]].
    - by eexists.
    - apply lookup_singleton_Some in Hk as [_ <-]. by eexists. }
  split.
  - apply (proj1 (sweep_deletes_exactly_expired s 1500 "old" Hwf) (mkRecord 4 1000));
      [reflexivity | simpl; lia].
  - apply (proj1 (proj2 (sweep_deletes_exactly_expired s 1500 "new" Hwf)) (mkRecord 1 2000));
      [reflexivity | simpl; lia].
Defined.

(** C10.  A record whose [resetTime] is earlier than [now] and which the
    sweep has not yet removed is what [get] returns, with its old [hits] and
    past [resetTime]: [get] takes no clock reading and applies no expiry.
    Expiry is applied by the sweep, which removes the record, and by
    [increment], which restarts it. *)
Theorem get_returns_stale_record (s : MemoryStore.t) (now : Z) (key : string)
    (l : positive) (r : WindowRecord) :
  MemoryStore.store s !! key = Some l →
  MemoryStore.heap s !! l = Some r →
  resetTime r < now →
  MemoryStore.get s key = Some l ∧
  MemoryStore.deref s l = Some r ∧
  MemoryStore.peek (MemoryStore.cleanup s now) key = None ∧
  ∀ w, ∃ s', MemoryStore.increment s now key w = Js.Ok (l, s') ∧
             MemoryStore.peek s' key = Some (mkRecord 1 (now + w)).
Proof.
  intros Hk Hl Hlt. split; [|split; [|split]].
  - unfold MemoryStore.get. by rewrite Hk.
  - done.
  - eapply SharingFacts.peek_cleanup_expired; [|done].
    apply MemoryStoreFacts.peek_Some. eauto.
  - intros w. eexists. split; [by eapply MemoryStoreFacts.increment_expired|].
    apply MemoryStoreFacts.peek_Some. exists l. simpl. split; [done|].
    apply lookup_insert_eq.
Qed.

(** A record that expired at 1000 is still returned by [get] at 5000. *)
Lemma get_returns_stale_record_witness :
  let s := {| MemoryStore.store := {["ip1" := 1%positive]};
              MemoryStore.heap := {[1%positive := mkRecord 7 1000]} |} in
  MemoryStore.get s "ip1" = Some 1%positive ∧
  MemoryStore.deref s 1%positive = Some (mkRecord 7 1000).
Proof.
  intros s.
  destruct (get_returns_stale_record s 5000 "ip1" 1%positive (mkRecord 7 1000))
    as (Hget & Hderef & _); [reflexivity | reflexivity | simpl; lia |].
  split; [exact Hget | exact Hderef].
Defined.

(** ** Ownership of the returned record *)

(** C9, as stated, fails on [MemoryStore]: after a first hit for "ip1" the
    caller sets [hits] of the record it received to 50, and the next [get]
    observes 50, not 1. *)
Lemma returned_record_is_not_a_copy :
  ∃ l s',
    MemoryStore.increment MemoryStore.new 0 "ip1" 1000 = Js.Ok (l, s') ∧
    MemoryStore.peek s' "ip1" = Some (mkRecord 1 1000) ∧
    MemoryStore.peek (MemoryStore.mutate s' l (mkRecord 50 1000)) "ip1"
      = Some (mkRecord 50 1000) ∧
    MemoryStore.peek (MemoryStore.mutate s' l (mkRecord 50 1000)) "ip1"
      ≠ MemoryStore.peek s' "ip1".
Proof.
  eexists _, _. split; [reflexivity|]. split; [reflexivity|].
  split; [reflexivity|]. vm_compute. discriminate.
Qed.

(** C9, amended.  [MemoryStore.increment] returns the record object that
    the store's [Map] holds for the key, not a copy: whatever the caller
    writes into it is what a subsequent [get] returns and what a subsequent
    [increment] within the written window counts from. *)
Theorem returned_record_is_the_stored_one (s s' : MemoryStore.t) (now : Z)
    (key : string) (w : Z) (l : positive) :
  MemoryStore.increment s now key w = Js.Ok (l, s') →
  MemoryStore.get s' key = Some l ∧
  ∀ r', MemoryStore.get (MemoryStore.mutate s' l r') key = Some l ∧
        MemoryStore.peek (MemoryStore.mutate s' l r') key = Some r' ∧
        ∀ now2 w2, now2 ≤ resetTime r' →
          ∃ s'', MemoryStore.increment (MemoryStore.mutate s' l r') now2 key w2
                   = Js.Ok (l, s'') ∧
                 MemoryStore.peek s'' key
                   = Some (mkRecord (hits r' + 1) (resetTime r')).
Proof.
  intros Hinc.
  destruct (SharingFacts.increment_returns_stored _ _ _ _ _ _ Hinc) as [Hk _].
  split; [unfold MemoryStore.get; by rewrite Hk|].
  intros r'. split; [unfold MemoryStore.get; simpl; by rewrite Hk|].
  split; [by apply SharingFacts.peek_mutate|].
  intros now2 w2 Hle. eexists. split.
  - eapply MemoryStoreFacts.increment_live; [exact Hk| |exact Hle].
    simpl. apply lookup_insert_eq.
  - apply MemoryStoreFacts.peek_Some. exists l. simpl. split; [done|].
    apply lookup_insert_eq.
Qed.

(** The first hit for "ip1" on an empty store, then a write of 50. *)
Lemma returned_record_is_the_stored_one_witness :
  ∃ l s',
    MemoryStore.increment MemoryStore.new 0 "ip1" 1000 = Js.Ok (l, s') ∧
    MemoryStore.get s' "ip1" = Some l ∧
    MemoryStore.peek (MemoryStore.mutate s' l (mkRecord 50 1000)) "ip1"
      = Some (mkRecord 50 1000).
Proof.
  eexists _, _. split; [reflexivity|].
  destruct (returned_record_is_the_stored_one MemoryStore.new _ 0 "ip1" 1000 _ eq_refl)
    as [Hget Hmut].
  split; [exact Hget|]. exact (proj1 (proj2 (Hmut (mkRecord 50 1000)))).
Defined.

(** ** The admission decision of the middleware *)

Section middleware_facts.
Context {S : Type} `{!Store S}.
Implicit Types (config : @Config S) (st : MemoryStore.t + S) (req : Request).

(** A request that is counted ends in one of the two branches on
    [record.hits > config.max]. *)
Lemma middleware_counted config st st' now now' req key record :
  skip config req = Js.Ok false →
  keyGenerator config req = Js.Ok key →
  store_increment st now key (windowMs config) = Js.Ok (record, st') →
  middleware config st now now' req =
    if Js.gt (hits record) (max config)
    then limit_exceeded config st' now' req record (limit_headers config record)
    else mkReply Next (limit_headers config record) st'.
Proof. intros Hs Hk Hi. unfold middleware. by rewrite Hs, Hk, Hi. Qed.

Lemma limit_exceeded_store config st now' req record hs :
  store_after (limit_exceeded config st now' req record hs) = st.
Proof.
  unfold limit_exceeded.
  destruct (onLimitReached config) as [f|]; [destruct (f req)|];
    destruct (handler config) as [h|]; try destruct (h req); done.
Qed.

Lemma limit_exceeded_outcome config st now' req record hs :
  outcome (limit_exceeded config st now' req record hs) = Handled ∨
  outcome (limit_exceeded config st now' req record hs)
    = Json (statusCode config) false (message config) ∨
  (∃ e, outcome (limit_exceeded config st now' req record hs) = NextErr e) ∨
  (∃ h e, handler config = Some h ∧ h req = HRejects e ∧
          outcome (limit_exceeded config st now' req record hs) = Uncaught e).
Proof.
  unfold limit_exceeded.
  destruct (onLimitReached config) as [f|]; [destruct (f req)|];
    destruct (handler config) as [h|]; try destruct (h req) eqn:Hh; simpl;
    eauto 8.
Qed.

Lemma limit_exceeded_visible_store config st1 st2 now' req record hs :
  outcome (limit_exceeded config st1 now' req record hs)
    = outcome (limit_exceeded config st2 now' req record hs) ∧
  resHeaders (limit_exceeded config st1 now' req record hs)
    = resHeaders (limit_exceeded config st2 now' req record hs).
Proof.
  unfold limit_exceeded.
  destruct (onLimitReached config) as [f|]; [destruct (f req)|];
    destruct (handler config) as [h|]; try destruct (h req); done.
Qed.

Lemma limit_exceeded_not_next config st now' req record hs :
  outcome (limit_exceeded config st now' req record hs) ≠ Next.
Proof.
  destruct (limit_exceeded_outcome config st now' req record hs)
    as [->|[->|[[e ->]|(h & e & _ & _ & ->)]]]; done.
Qed.

Lemma middleware_counted_store config st st' now now' req key record :
  skip config req = Js.Ok false →
  keyGenerator config req = Js.Ok key →
  store_increment st now key (windowMs config) = Js.Ok (record, st') →
  store_after (middleware config st now now' req) = st'.
Proof.
  intros Hs Hk Hi. rewrite (middleware_counted _ _ _ _ _ _ _ _ Hs Hk Hi).
  destruct (Js.gt _ _); [apply limit_exceeded_store | done].
Qed.

Lemma middleware_counted_next config st st' now now' req key record :
  skip config req = Js.Ok false →
  keyGenerator config req = Js.Ok key →
  store_increment st now key (windowMs config) = Js.Ok (record, st') →
  outcome (middleware config st now now' req) = Next ↔ hits record ≤ max config.
Proof.
  intros Hs Hk Hi. rewrite (middleware_counted _ _ _ _ _ _ _ _ Hs Hk Hi).
  destruct (Js.gt (hits record) (max config)) eqn:Hgt.
  - apply gt_true in Hgt. split; [|lia].
    intros Hn. by apply limit_exceeded_not_next in Hn.
  - apply gt_false in Hgt. done.
Qed.

(** [increment] through the store interface, on the default store. *)
Lemma store_increment_absent (m : MemoryStore.t) now key w :
  MemoryStore.store m !! key = None →
  ∃ l m', store_increment (inl m : MemoryStore.t + S) now key w
            = Js.Ok (mkRecord 1 (now + w), inl m') ∧
          MemoryStore.store m' !! key = Some l ∧
          MemoryStore.heap m' !! l = Some (mkRecord 1 (now + w)).
Proof.
  intros Hk. eexists _, _. split.
  - unfold store_increment, sum_Store, store_increment, MemoryStore_Store.
    rewrite (MemoryStoreFacts.increment_absent _ _ _ _ Hk).
    unfold MemoryStore.deref. simpl. by rewrite lookup_insert_eq.
  - simpl. by rewrite !lookup_insert_eq.
Qed.

Lemma store_increment_live (m : MemoryStore.t) now key w l r :
  MemoryStore.store m !! key = Some l →
  MemoryStore.heap m !! l = Some r →
  now ≤ resetTime r →
  ∃ m', store_increment (inl m : MemoryStore.t + S) now key w
          = Js.Ok (mkRecord (hits r + 1) (resetTime r), inl m') ∧
        MemoryStore.store m' !! key = Some l ∧
        MemoryStore.heap m' !! l = Some (mkRecord (hits r + 1) (resetTime r)).
Proof.
  intros Hk Hl Hle. eexists. split.
  - unfold store_increment, sum_Store, store_increment, MemoryStore_Store.
    rewrite (MemoryStoreFacts.increment_live _ _ _ _ _ _ Hk Hl Hle).
    unfold MemoryStore.deref. simpl. by rewrite lookup_insert_eq.
  - simpl. by rewrite lookup_insert_eq.
Qed.

Lemma serve_live config (m : MemoryStore.t) key l r reqs :
  MemoryStore.store m !! key = Some l →
  MemoryStore.heap m !! l = Some r →
  in_window config key r reqs →
  ∀ (i : nat) reply, serve config (inl m) reqs !! i = Some reply →
    (outcome reply = Next ↔ hits r + Z.of_nat i + 1 ≤ max config).
Proof.
  intros Hk Hl Hreqs. revert m r Hk Hl Hreqs.
  induction reqs as [|[[now now'] req] rest IH]; intros m r Hk Hl Hreqs i reply Hi.
  - done.
  - apply Forall_cons in Hreqs as [(Hle & Hs & Hkey) Hrest]. simpl in Hle, Hs, Hkey.
    destruct (store_increment_live m now key (windowMs config) l r Hk Hl Hle)
      as (m' & Hinc & Hk' & Hl').
    simpl in Hi. destruct i as [|i].
    + simpl in Hi. injection Hi as <-.
      rewrite (middleware_counted_next _ _ _ _ _ _ _ _ Hs Hkey Hinc). simpl. lia.
    + simpl in Hi.
      rewrite (middleware_counted_store _ _ _ _ _ _ _ _ Hs Hkey Hinc) in Hi.
      rewrite (IH m' _ Hk' Hl' Hrest i reply Hi). simpl. lia.
Qed.

End middleware_facts.

(** ** Calls that overlap *)

Section overlap_facts.
Context {S : Type} `{!Store S}.
Implicit Types (config : @Config S) (m : MemoryStore.t) (req : Request).


(** A call that is resumed as soon as it has suspended is the call that
    [middleware] runs. *)
Lemma turnaround config m (calls : list Overlap.Call) now now' req :
  ∃ m',
    Overlap.step config (Overlap.step config (m, calls) (Overlap.Arrive now req))
      (Overlap.Resume (length calls) now')
    = (m', calls ++ [Overlap.Replied
                       (outcome (middleware config (inl m) now now' req))
                       (resHeaders (middleware config (inl m) now now' req))]) ∧
    store_after (middleware config (inl m) now now' req) = inl m'.
Proof.
  unfold Overlap.step, Overlap.start, middleware. simpl.
  destruct (skip config req) as [[|]|e]; simpl.
  - exists m. by rewrite list_lookup_middle.
  - destruct (keyGenerator config req) as [key|e]; simpl.
    + unfold store_increment, sum_Store, store_increment, MemoryStore_Store.
      destruct (MemoryStore.increment m now key (windowMs config)) as [[l m1]|e] eqn:Hinc;
        simpl; rewrite list_lookup_middle by done.
      * destruct (SharingFacts.increment_returns_stored _ _ _ _ _ _ Hinc) as [_ [r Hr]].
        unfold Overlap.finish, MemoryStore.deref. rewrite Hr.
        exists m1. destruct (Js.gt (hits r) (max config)); simpl.
        -- rewrite limit_exceeded_store. split; [|done].
           rewrite <- (Nat.add_0_r (length calls)), insert_app_r. simpl.
           pose proof (limit_exceeded_visible_store config (inl m1 : MemoryStore.t + S)
                         (inl m1) now' req r (limit_headers config r)). done.
        -- split; [|done].
           by rewrite <- (Nat.add_0_r (length calls)), insert_app_r.
      * exists m. simpl. split; [|done].
        by rewrite <- (Nat.add_0_r (length calls)), insert_app_r.
    + exists m. by rewrite list_lookup_middle.
  - exists m. by rewrite list_lookup_middle.
Qed.

(** Served one after the other, the calls get the replies of [serve]. *)
Lemma one_after_the_other_is_serve config m (calls : list Overlap.Call) reqs :
  ∃ m',
    Overlap.run config (m, calls) (Overlap.one_after_the_other (length calls) reqs)
    = (m', calls ++ ((λ r, Overlap.Replied (outcome r) (resHeaders r))
                       <$> serve config (inl m) reqs)) ∧
    Trace.serve_store config (inl m) reqs = inl m'.
Proof.
  revert m calls. induction reqs as [|[[now now'] req] rest IH]; intros m calls.
  - exists m. simpl. by rewrite app_nil_r.
  - destruct (turnaround config m calls now now' req) as (m1 & Hstep & Hst).
    unfold Overlap.run. cbn [Overlap.one_after_the_other foldl serve Trace.serve_store].
    rewrite Hstep, Hst, fmap_cons.
    destruct (IH m1 (calls ++ [Overlap.Replied
                                 (outcome (middleware config (inl m) now now' req))
                                 (resHeaders (middleware config (inl m) now now' req))]))
      as (m' & Hrun & Hfin).
    rewrite length_app, Nat.add_1_r in Hrun. unfold Overlap.run in Hrun.
    exists m'. rewrite Hrun. split; [|done]. by rewrite <- app_assoc.
Qed.

Lemma step_never_admits config m (calls : list Overlap.Call) ev :
  MemoryStore.counted m →
  max config ≤ 0 →
  match ev with
  | Overlap.Arrive _ req => skip config req = Js.Ok false
  | Overlap.Resume _ _ => True
  end →
  Forall (λ c, ∀ hs, c ≠ Overlap.Replied Next hs) calls →
  MemoryStore.counted (Overlap.step config (m, calls) ev).1 ∧
  Forall (λ c, ∀ hs, c ≠ Overlap.Replied Next hs) (Overlap.step config (m, calls) ev).2.
Proof.
  intros Hc Hmax Hcounted Hcalls.
  destruct ev as [now req|i now']; simpl.
  - unfold Overlap.start. rewrite Hcounted.
    destruct (keyGenerator config req) as [key|e].
    + destruct (MemoryStore.increment m now key (windowMs config)) as [[l m1]|e] eqn:Hinc;
        simpl.
      * split; [by eapply MemoryStoreFacts.increment_counted|].
        apply Forall_app. split; [done|]. by repeat constructor.
      * split; [done|]. apply Forall_app. split; [done|]. by repeat constructor.
    + simpl. split; [done|]. apply Forall_app. split; [done|]. by repeat constructor.
  - destruct (calls !! i) as [[req settled|o hs]|] eqn:Hi; [|done..].
    destruct (Overlap.finish config m now' req settled) as [o hs] eqn:Hfin. simpl.
    split; [done|].
    apply Forall_insert; [done|]. intros hs' [= -> _].
    unfold Overlap.finish in Hfin. destruct settled as [l|e]; [|done].
    destruct (MemoryStore.deref m l) as [record|] eqn:Hl; [|done].
    pose proof (Hc l record Hl) as Hhits.
    rewrite (proj2 (gt_true (hits record) (max config))) in Hfin by lia.
    injection Hfin as Hout _. by apply limit_exceeded_not_next in Hout.
Qed.

(** With [max ≤ 0] no call ever ends admitted, in whatever order the calls
    start and resume. *)
Lemma run_never_admits config m (calls : list Overlap.Call) events :
  MemoryStore.counted m →
  max config ≤ 0 →
  Overlap.all_counted config events →
  Forall (λ c, ∀ hs, c ≠ Overlap.Replied Next hs) calls →
  Forall (λ c, ∀ hs, c ≠ Overlap.Replied Next hs)
    (Overlap.run config (m, calls) events).2.
Proof.
  intros Hc Hmax Hev. revert m calls Hc.
  induction Hev as [|ev events Hcounted _ IH]; intros m calls Hc Hcalls; [done|].
  unfold Overlap.run. cbn [foldl].
  destruct (step_never_admits config m calls ev Hc Hmax Hcounted Hcalls) as [Hc1 Hcalls1].
  destruct (Overlap.step config (m, calls) ev) as [m1 calls1].
  by apply IH.
Qed.

End overlap_facts.



Example throttle_two_per_second :
  throttle (mkOptions (Some 1000) (Some 2) None None None None None None None None [])
    = Js.Ok two_per_second.
Proof. reflexivity. Qed.

(** Three rapid requests from "ip1" and a fourth one 1100 ms later. *)
Example scenario_two_per_second :
  let req := mkRequest "ip1" "/" in
  let replies := serve two_per_second (store two_per_second)
                   [(0, 0, req); (1, 1, req); (2, 2, req); (1100, 1100, req)] in
  outcome <$> replies
    = [Next; Next;
       Json 429 false "Too many requests, please try again later."; Next] ∧
  (λ r, resHeaders r !! "X-RateLimit-Remaining") <$> replies
    = [Some 1; Some 0; Some 0; Some 1].
Proof. vm_compute. done. Qed.


(** Records written by [increment] count at least one hit when the record
    they replace counted none or more. *)
Lemma next_record_hits (now w : Z) (data : option WindowRecord) :
  (∀ old, data = Some old → 0 ≤ hits old) →
  1 ≤ hits (RedisStore.next_record now w data).
Proof.
  intros H. unfold RedisStore.next_record. destruct data as [old|]; [|done].
  destruct (Js.gt now (resetTime old)); simpl; [done|].
  specialize (H old eq_refl). lia.
Qed.

Section default_store_facts.
Context {S : Type} `{!Store S}.

(** On the default store [increment] never fails, and it hands the
    middleware a record with at least one hit. *)
Lemma store_increment_default (m : MemoryStore.t) (now : Z) (key : string) (w : Z) :
  MemoryStore.wf m → MemoryStore.counted m →
  ∃ record m',
    store_increment (inl m : MemoryStore.t + S) now key w = Js.Ok (record, inl m') ∧
    MemoryStore.wf m' ∧ MemoryStore.counted m' ∧ 1 ≤ hits record.
Proof.
  intros Hwf Hc.
  destruct (MemoryStoreFacts.increment_total m now key w Hwf) as (l & m' & Hinc).
  destruct (MemoryStoreFacts.increment_counted _ _ _ _ _ _ Hc Hinc) as (Hc' & r & Hr & Hhits).
  exists r, m'. split; [|split; [by eapply MemoryStoreFacts.wf_increment|done]].
  unfold store_increment, sum_Store, store_increment, MemoryStore_Store.
  rewrite Hinc. unfold MemoryStore.deref. by rewrite Hr.
Qed.

Lemma middleware_default (config : @Config S) (m : MemoryStore.t)
    (now now' : Z) (req : Request) :
  MemoryStore.wf m → MemoryStore.counted m →
  ∃ m', store_after (middleware config (inl m) now now' req) = inl m' ∧
        MemoryStore.wf m' ∧ MemoryStore.counted m' ∧
        (max config ≤ 0 → skip config req = Js.Ok false →
         outcome (middleware config (inl m) now now' req) ≠ Next).
Proof.
  intros Hwf Hc. unfold middleware.
  destruct (skip config req) as [[|]|e]; [by exists m ..| |by exists m].
  destruct (keyGenerator config req) as [key|e]; [|by exists m].
  destruct (store_increment_default m now key (windowMs config) Hwf Hc)
    as (record & m' & -> & Hwf' & Hc' & Hhits).
  exists m'. destruct (Js.gt (hits record) (max config)) eqn:Hgt.
  - rewrite limit_exceeded_store. split; [done|]. split; [done|]. split; [done|].
    intros _ _. apply limit_exceeded_not_next.
  - simpl. split; [done|]. split; [done|]. split; [done|].
    intros Hmax _. apply gt_false in Hgt. lia.
Qed.

Lemma serve_never_admits (config : @Config S) (m : MemoryStore.t)
    (reqs : list (Z * Z * Request)) :
  MemoryStore.wf m → MemoryStore.counted m → max config ≤ 0 →
  Forall2 (λ e reply, skip config e.2 = Js.Ok false → outcome reply ≠ Next)
    reqs (serve config (inl m) reqs).
Proof.
  intros Hwf Hc Hmax. revert m Hwf Hc.
  induction reqs as [|[[now now'] req] rest IH]; intros m Hwf Hc; simpl.
  - constructor.
  - destruct (middleware_default config m now now' req Hwf Hc)
      as (m' & -> & Hwf' & Hc' & Hrej).
    constructor; [simpl; auto|]. by apply IH.
Qed.

End default_store_facts.

(** C8.  When [config.max ≤ 0], a counted request is never admitted,
    whatever the hit count of its record is (a record counts at least one
    hit): the middleware takes the rejection branch.  The evaluation itself
    never fails: the branch ends with the rejection response, with the
    custom handler, or with the error of a throwing callback passed to
    [next]; the promise of the middleware rejects only when a custom handler
    returns a promise that rejects, and never without a custom handler.
    Over the default store no request that is not skipped is ever admitted,
    whether the requests are served one after the other or their calls
    overlap in any order. *)
Theorem nonpositive_limit_rejects {S : Type} `{!Store S} (config : @Config S)
    (st st' : MemoryStore.t + S) (now now' : Z) (req : Request)
    (key : string) (record : WindowRecord) :
  skip config req = Js.Ok false →
  keyGenerator config req = Js.Ok key →
  store_increment st now key (windowMs config) = Js.Ok (record, st') →
  1 ≤ hits record →
  max config ≤ 0 →
  outcome (middleware config st now now' req) ≠ Next ∧
  (outcome (middleware config st now now' req) = Handled ∨
   outcome (middleware config st now now' req)
     = Json (statusCode config) false (message config) ∨
   (∃ e, outcome (middleware config st now now' req) = NextErr e) ∨
   (∃ h e, handler config = Some h ∧ h req = HRejects e ∧
           outcome (middleware config st now now' req) = Uncaught e)) ∧
  (handler config = None →
   ∀ e, outcome (middleware config st now now' req) ≠ Uncaught e) ∧
  (handler config = None → onLimitReached config = None →
   outcome (middleware config st now now' req)
     = Json (statusCode config) false (message config)) ∧
  (∀ reqs,
     Forall2 (λ e reply, skip config e.2 = Js.Ok false → outcome reply ≠ Next)
       reqs (serve config (inl MemoryStore.new) reqs)) ∧
  (∀ events,
     Overlap.all_counted config events →
     Forall (λ c, ∀ hs, c ≠ Overlap.Replied Next hs)
       (Overlap.run config (MemoryStore.new, []) events).2).
Proof.
  intros Hs Hkey Hinc Hhits Hmax.
  rewrite (middleware_counted _ _ _ _ _ _ _ _ Hs Hkey Hinc).
  assert (Js.gt (hits record) (max config) = true) as -> by (apply gt_true; lia).
  pose proof (limit_exceeded_outcome config st' now' req record
                (limit_headers config record)) as Hout.
  split; [apply limit_exceeded_not_next|]. split; [done|].
  split; [|split; [|split]].
  - intros Hh e He.
    destruct Hout as [Ho|[Ho|[[e' Ho]|(h & e' & Hsome & _)]]];
      [rewrite Ho in He; done ..|congruence].
  - intros Hh Ho. unfold limit_exceeded. by rewrite Hh, Ho.
  - intros reqs. apply serve_never_admits;
      [apply MemoryStoreFacts.wf_new | apply MemoryStoreFacts.counted_new | done].
  - intros events Hev. apply run_never_admits;
      [apply MemoryStoreFacts.counted_new | done | done | constructor].
Qed.

Lemma nonpositive_limit_rejects_witness :
  outcome (middleware never_admits (inl MemoryStore.new) 0 0 (mkRequest "ip1" "/"))
    = Json 429 false "Too many requests, please try again later.".
Proof.
  refine (proj1 (proj2 (proj2 (proj2 (nonpositive_limit_rejects never_admits
            (inl MemoryStore.new) _ 0 0 (mkRequest "ip1" "/") "ip1"
            (mkRecord 1 1000) _ _ _ _ _)))) eq_refl eq_refl);
    first [reflexivity | simpl; lia].
Defined.

(** ** The [Retry-After] header *)

Lemma limit_headers_no_retry_after {S : Type} `{!Store S} (config : @Config S)
    (record : WindowRecord) :
  limit_headers config record !! "Retry-After" = None.
Proof.
  unfold limit_headers. destruct (headers config); [|apply lookup_empty].
  rewrite !lookup_insert_ne by done. apply lookup_empty.
Qed.

(** C5, as stated, fails, with a limit of one hit per second.  A second
    request counted at time 1000, the last instant of the window opened at
    0, is rejected with [Retry-After: 0], which is not strictly positive.
    A second request counted at time 500 whose header is written at time
    2600 gets [Math.ceil(-1.6) = -1]: the value is not floored at 0. *)
Lemma retry_after_can_be_zero_or_negative :
  let config : @Config RedisStore.Server :=
    {| windowMs := 1000; max := 1;
       message := "Too many requests, please try again later.";
       statusCode := 429;
       keyGenerator := λ req, Js.Ok (ip req);
       skip := λ _, Js.Ok false;
       store := inl MemoryStore.new;
       headers := true; handler := None; onLimitReached := None; other := [] |} in
  let req := mkRequest "ip1" "/" in
  (∃ first second,
     serve config (store config) [(0, 0, req); (1000, 1000, req)] = [first; second] ∧
     outcome second = Json 429 false "Too many requests, please try again later." ∧
     resHeaders second !! "X-RateLimit-Remaining" = Some 0 ∧
     resHeaders second !! "Retry-After" = Some 0) ∧
  (∃ first second,
     serve config (store config) [(0, 0, req); (500, 2600, req)] = [first; second] ∧
     outcome second = Json 429 false "Too many requests, please try again later." ∧
     resHeaders second !! "Retry-After" = Some (-1) ∧
     Z.max 0 (Js.ceil_div (1000 - 2600) 1000) = 0).
Proof.
  split; eexists _, _; (split; [reflexivity|]); vm_compute; done.
Qed.

(** The value the rejection branch writes. *)
Lemma retry_after_value {S : Type} `{!Store S} (config : @Config S)
    (st : MemoryStore.t + S) (now' : Z) (req : Request) (record : WindowRecord)
    (hs : gmap string Z) :
  headers config = true →
  match onLimitReached config with
  | Some f => ∃ u, f req = Js.Ok u
  | None => True
  end →
  resHeaders (limit_exceeded config st now' req record hs) !! "Retry-After"
    = Some (Js.ceil_div (resetTime record - now') 1000).
Proof.
  intros Hh Hcb. unfold limit_exceeded. rewrite Hh.
  destruct (onLimitReached config) as [f|].
  - destruct Hcb as [u ->].
    destruct (handler config) as [h|]; [destruct (h req)|]; simpl;
      apply lookup_insert_eq.
  - destruct (handler config) as [h|]; [destruct (h req)|]; simpl;
      apply lookup_insert_eq.
Qed.

(** C5, amended.  For a counted request, [Retry-After] is set only in the
    rejection branch: an admitted request has no such header.  When the
    request is rejected, headers are enabled, [onLimitReached] does not
    throw, and the header is written at a time [now'] less than a second
    after the end of the window, the header is
    [ceil((resetTime - now') / 1000)] floored at 0.  It is strictly positive
    exactly when the header is written before the window ends,
    [now' < resetTime]. *)
Theorem retry_after_header {S : Type} `{!Store S} (config : @Config S)
    (st st' : MemoryStore.t + S) (now now' : Z) (req : Request)
    (key : string) (record : WindowRecord) :
  skip config req = Js.Ok false →
  keyGenerator config req = Js.Ok key →
  store_increment st now key (windowMs config) = Js.Ok (record, st') →
  (outcome (middleware config st now now' req) = Next →
   resHeaders (middleware config st now now' req) !! "Retry-After" = None) ∧
  (max config < hits record →
   headers config = true →
   match onLimitReached config with
   | Some f => ∃ u, f req = Js.Ok u
   | None => True
   end →
   now' < resetTime record + 1000 →
   ∃ v, resHeaders (middleware config st now now' req) !! "Retry-After" = Some v ∧
        v = Z.max 0 (Js.ceil_div (resetTime record - now') 1000) ∧
        (0 < v ↔ now' < resetTime record)).
Proof.
  intros Hs Hkey Hinc.
  rewrite (middleware_counted _ _ _ _ _ _ _ _ Hs Hkey Hinc). split.
  - destruct (Js.gt (hits record) (max config)).
    + intros Hn. by apply limit_exceeded_not_next in Hn.
    + intros _. simpl. apply limit_headers_no_retry_after.
  - intros Hgt Hh Hcb Hlate. rewrite (proj2 (gt_true _ _) Hgt).
    eexists. split; [by apply retry_after_value|].
    pose proof (proj2 (ceil_div_nonneg (resetTime record - now'))) as Hnn.
    split; [lia|]. rewrite ceil_div_pos. lia.
Qed.

(** A rejection written 300 ms into a window of one second. *)
Lemma retry_after_header_witness :
  ∃ v, resHeaders (middleware never_admits (inl MemoryStore.new) 0 300
                     (mkRequest "ip1" "/")) !! "Retry-After" = Some v ∧
       v = Z.max 0 (Js.ceil_div (resetTime (mkRecord 1 1000) - 300) 1000) ∧
       (0 < v ↔ 300 < resetTime (mkRecord 1 1000)).
Proof.
  refine (proj2 (retry_after_header never_admits (inl MemoryStore.new) _
            0 300 (mkRequest "ip1" "/") "ip1" (mkRecord 1 1000) _ _ _) _ _ _ _);
    first [reflexivity | simpl; lia | exact I].
Defined.

(** ** Errors of the store and of the key extractor *)

(** C4, as stated, fails.  The options carry [failOpenOnStoreError: true]
    and the Redis server is unreachable: the request does not pass through,
    its error is handed to [next].  And when [keyGenerator] throws, the
    error is not caught: the promise of the middleware rejects. *)
Lemma store_error_is_not_failed_open :
  let options : @Options RedisStore.Server :=
    mkOptions None None None None None None
      (Some (RedisStore.mkServer ∅ false)) None None None
      [("failOpenOnStoreError", true)] in
  let throwing : @Options RedisStore.Server :=
    mkOptions None None None None (Some (λ _, Js.Throw "no user")) None
      None None None None [("failOpenOnStoreError", true)] in
  let req := mkRequest "ip1" "/" in
  (∃ config, throttle options = Js.Ok config ∧
     outcome (middleware config (store config) 0 0 req) = NextErr "StoreUnavailable" ∧
     outcome (middleware config (store config) 0 0 req) ≠ Next) ∧
  (∃ config, throttle throwing = Js.Ok config ∧
     outcome (middleware config (store config) 0 0 req) = Uncaught "no user").
Proof.
  split; eexists; (split; [reflexivity|]); [split; [reflexivity|]|]; done.
Qed.

(** C4, amended.  When the store's [increment] fails for a counted request,
    the middleware catches the error and passes it to [next(err)]: it sets
    no rate-limit header, leaves the store as it was and does not call
    [next()] as for an admitted request, whatever the options are (none of
    them selects a fail-open policy). *)
Theorem store_error_goes_to_next {S : Type} `{!Store S} (config : @Config S)
    (st : MemoryStore.t + S) (now now' : Z) (req : Request)
    (key : string) (e : string) :
  skip config req = Js.Ok false →
  keyGenerator config req = Js.Ok key →
  store_increment st now key (windowMs config) = Js.Throw e →
  outcome (middleware config st now now' req) = NextErr e ∧
  resHeaders (middleware config st now now' req) = ∅ ∧
  store_after (middleware config st now now' req) = st.
Proof. intros Hs Hkey Hinc. unfold middleware. by rewrite Hs, Hkey, Hinc. Qed.

Lemma store_error_goes_to_next_witness :
  let config : @Config RedisStore.Server :=
    {| windowMs := 60000; max := 60;
       message := "Too many requests, please try again later.";
       statusCode := 429;
       keyGenerator := λ req, Js.Ok (ip req);
       skip := λ _, Js.Ok false;
       store := inr (RedisStore.mkServer ∅ false);
       headers := true; handler := None; onLimitReached := None;
       other := [("failOpenOnStoreError", true)] |} in
  outcome (middleware config (store config) 0 0 (mkRequest "ip1" "/"))
    = NextErr "StoreUnavailable".
Proof.
  intros config.
  refine (proj1 (store_error_goes_to_next config (store config) 0 0
            (mkRequest "ip1" "/") "ip1" "StoreUnavailable" _ _ _));
    reflexivity.
Defined.

(** ** Construction of the middleware *)

(** C7, as stated, fails: [throttle({ windowMs: -5, max: 0 })] returns a
    middleware, configured with these values. *)
Lemma nonpositive_options_are_accepted :
  ∃ config : @Config RedisStore.Server,
    throttle (mkOptions (Some (-5)) (Some 0) None None None None None None None None [])
      = Js.Ok config ∧
    windowMs config = -5 ∧ max config = 0.
Proof. eexists. split; [reflexivity|]. done. Qed.

(** C7, amended.  The factory fails for no configuration: for every
    options object, with a non-positive [windowMs] or [max] as with any
    other, the construction succeeds and the configuration holds the given
    [windowMs] and [max] unchanged (the defaults 60000 and 60 when absent).
    No configuration error is raised at request time: an error that a call
    of the middleware ends with is the error of [skip], of [keyGenerator],
    of the store, of [onLimitReached] or of the custom handler. *)
Theorem throttle_never_throws {S : Type} `{!Store S} (options : @Options S) :
  ∃ config,
    throttle options = Js.Ok config ∧
    windowMs config = default 60000 (o_windowMs options) ∧
    max config = default 60 (o_max options) ∧
    ∀ st now now' req e,
      (outcome (middleware config st now now' req) = Uncaught e →
       skip config req = Js.Throw e ∨ keyGenerator config req = Js.Throw e ∨
       (∃ h, handler config = Some h ∧ h req = HRejects e)) ∧
      (outcome (middleware config st now now' req) = NextErr e →
       (∃ key, keyGenerator config req = Js.Ok key ∧
               store_increment st now key (windowMs config) = Js.Throw e) ∨
       (∃ f, onLimitReached config = Some f ∧ f req = Js.Throw e) ∨
       (∃ h, handler config = Some h ∧ h req = HThrows e)).
Proof.
  eexists. split; [reflexivity|]. split; [done|]. split; [done|].
  set (config := mkConfig _ _ _ _ _ _ _ _ _ _ _).
  intros st now now' req e. unfold middleware.
  destruct (skip config req) as [[|]|e0] eqn:Hs.
  - split; discriminate.
  - destruct (keyGenerator config req) as [key|e1] eqn:Hkey.
    + destruct (store_increment st now key (windowMs config)) as [[record st']|e2] eqn:Hinc.
      * destruct (Js.gt (hits record) (max config)); [|split; discriminate].
        unfold limit_exceeded.
        destruct (onLimitReached config) as [f|] eqn:Hf.
        -- destruct (f req) as [u|e3] eqn:Hfr.
           ++ destruct (handler config) as [h|] eqn:Hh.
              ** destruct (h req) as [|e4|e4] eqn:Hhr; simpl.
                 --- split; discriminate.
                 --- split; [discriminate|]. intros [= <-]. right. right. eauto.
                 --- split; [|discriminate]. intros [= <-]. right. right. eauto.
              ** simpl. split; discriminate.
           ++ simpl. split; [discriminate|]. intros [= <-]. right. left. eauto.
        -- destruct (handler config) as [h|] eqn:Hh.
           ++ destruct (h req) as [|e4|e4] eqn:Hhr; simpl.
              ** split; discriminate.
              ** split; [discriminate|]. intros [= <-]. right. right. eauto.
              ** split; [|discriminate]. intros [= <-]. right. right. eauto.
           ++ simpl. split; discriminate.
      * simpl. split; [discriminate|]. intros [= <-]. left. eauto.
    + simpl. split; [|discriminate]. intros [= <-]. right. by left.
  - simpl. split; [|discriminate]. intros [= <-]. by left.
Qed.

(** ** Calls made together *)

Module ConcurrencyFacts.
Import MemoryStore MemoryStoreFacts.

Lemma replay_live (s : t) (key : string) (w : Z) l r (ts : list Z) :
  store s !! key = Some l →
  heap s !! l = Some r →
  Forall (λ now, now ≤ resetTime r) ts →
  ∃ s', replay s key w ts = Js.Ok s' ∧
        store s' !! key = Some l ∧
        heap s' !! l = Some (mkRecord (hits r + Z.of_nat (length ts)) (resetTime r)).
Proof.
  intros Hk Hl Hts. revert s r Hk Hl Hts.
  induction ts as [|now rest IH]; intros s r Hk Hl Hts.
  - exists s. simpl. split; [done|]. split; [done|].
    rewrite Hl. f_equal. destruct r; simpl; f_equal; lia.
  - apply Forall_cons in Hts as [Hle Hrest]. simpl.
    rewrite (increment_live _ _ _ _ _ _ Hk Hl Hle).
    destruct (IH {| store := store s;
                    heap := <[l := mkRecord (hits r + 1) (resetTime r)]> (heap s) |}
                 (mkRecord (hits r + 1) (resetTime r)))
      as (s' & Hrun & Hk' & Hl');
      [exact Hk | apply lookup_insert_eq | exact Hrest |].
    exists s'. split; [done|]. split; [done|].
    rewrite Hl'. simpl. do 2 f_equal. lia.
Qed.

(** X6.  On [MemoryStore], M calls made together for a key without a record,
    all within the window the first of them opens, leave [hits = M]: every
    call is counted. *)
Lemma replay_counts_every_call (s : t) (key : string) (w : Z) (now : Z)
    (ts : list Z) :
  store s !! key = None →
  Forall (λ t, t ≤ now + w) ts →
  ∃ s', replay s key w (now :: ts) = Js.Ok s' ∧
        peek s' key = Some (mkRecord (Z.of_nat (length (now :: ts))) (now + w)).
Proof.
  intros Hk Hts. simpl replay. rewrite (increment_absent _ _ _ _ Hk).
  destruct (replay_live
              {| store := <[key := fresh (dom (heap s))]> (store s);
                 heap := <[fresh (dom (heap s)) := mkRecord 1 (now + w)]> (heap s) |}
              key w (fresh (dom (heap s))) (mkRecord 1 (now + w)) ts)
    as (s' & Hrun & Hk' & Hl'); [| |exact Hts|].
  - simpl. apply lookup_insert_eq.
  - simpl. apply lookup_insert_eq.
  - exists s'. split; [exact Hrun|]. apply peek_Some.
    eexists. split; [exact Hk'|]. rewrite Hl'. simpl. do 2 f_equal. lia.
Qed.

End ConcurrencyFacts.

(** C1 at its failing input.  Two calls of [RedisStore.increment] for "ip1"
    are in flight together on an empty, reachable server.  The event loop
    runs the read of each before the write of either: both reads reply
    [null], both calls write and return [hits = 1], and the server holds
    [hits = 1] after two increments.  Run one after the other, the same two
    calls leave [hits = 2]. *)
Theorem RedisStore_concurrent_increments_lose_an_update :
  let calls := [RedisStore.Start "ip1" 1000; RedisStore.Start "ip1" 1000] in
  let server := RedisStore.mkServer ∅ true in
  (∃ server',
     RedisStore.run (calls, server) [(0%nat, 0); (1%nat, 0); (0%nat, 1); (1%nat, 1)]
       = ([RedisStore.Returned (mkRecord 1 1000);
           RedisStore.Returned (mkRecord 1 1000)], server') ∧
     RedisStore.get server' 2 "ip1" = Js.Ok (Some (mkRecord 1 1000))) ∧
  (∃ server',
     RedisStore.run (calls, server) [(0%nat, 0); (0%nat, 0); (1%nat, 1); (1%nat, 1)]
       = ([RedisStore.Returned (mkRecord 1 1000);
           RedisStore.Returned (mkRecord 2 1000)], server') ∧
     RedisStore.get server' 2 "ip1" = Js.Ok (Some (mkRecord 2 1000))).
Proof. split; eexists; (split; [reflexivity|]); reflexivity. Qed.

(** * Further properties of the stores and of the middleware *)

(** ** MemoryStore: keys are independent *)

Module FrameFacts.
Import MemoryStore MemoryStoreFacts Trace.

Lemma separate_new : separate new.
Proof. intros k1 k2 l H. simpl in H. by rewrite lookup_empty in H. Qed.

(** The object allocated for a new key is held under no other key. *)
Lemma fresh_not_stored (s : t) (key : string) :
  wf s → store s !! key ≠ Some (fresh (dom (heap s))).
Proof.
  intros Hwf Hk. destruct (Hwf _ _ Hk) as [r Hr].
  apply (is_fresh (dom (heap s))). apply elem_of_dom. eauto.
Qed.

Lemma separate_increment (s s' : t) (now : Z) (key : string) (w : Z) l :
  wf s → separate s → increment s now key w = Js.Ok (l, s') → separate s'.
Proof.
  intros Hwf Hsep. unfold increment.
  destruct (store s !! key) as [l0|] eqn:Hk.
  - destruct (heap s !! l0) as [r|]; [|done].
    destruct (Js.gt now (resetTime r)); intros [= <- <-]; exact Hsep.
  - intros [= <- <-]. intros k1 k2 l' H1 H2. simpl in H1, H2.
    apply lookup_insert_Some in H1 as [[Hk1 Hl1]|[Hne1 H1]];
      apply lookup_insert_Some in H2 as [[Hk2 Hl2]|[Hne2 H2]].
    + congruence.
    + subst l'. by apply fresh_not_stored in H2.
    + subst l'. by apply fresh_not_stored in H1.
    + eauto.
Qed.

Lemma separate_cleanup (s : t) (now : Z) : separate s → separate (cleanup s now).
Proof.
  intros Hsep k1 k2 l H1 H2. unfold cleanup in *. simpl in *.
  apply map_lookup_filter_Some in H1 as [H1 _].
  apply map_lookup_filter_Some in H2 as [H2 _]. eauto.
Qed.

Lemma counted_cleanup (s : t) (now : Z) : counted s → counted (cleanup s now).
Proof. intros Hc l r H. exact (Hc l r H). Qed.

End FrameFacts.

Module FrameProof.

Lemma increment_frame (s s' : MemoryStore.t) (now : Z)
    (key key' : string) (w : Z) (l : positive) :
  MemoryStore.wf s →
  Trace.separate s →
  key ≠ key' →
  MemoryStore.increment s now key w = Js.Ok (l, s') →
  MemoryStore.get s' key' = MemoryStore.get s key' ∧
  MemoryStore.peek s' key' = MemoryStore.peek s key'.
Proof.
  intros Hwf Hsep Hne. unfold MemoryStore.increment.
  unfold MemoryStore.peek, MemoryStore.get, MemoryStore.deref.
  destruct (MemoryStore.store s !! key) as [l0|] eqn:Hk.
  - destruct (MemoryStore.heap s !! l0) as [r|]; [|done].
    assert (∀ r', (match MemoryStore.store s !! key' with
                   | Some l' => <[l0 := r']> (MemoryStore.heap s) !! l'
                   | None => None
                   end) = match MemoryStore.store s !! key' with
                          | Some l' => MemoryStore.heap s !! l'
                          | None => None
                          end) as Hframe.
    { intros r'. destruct (MemoryStore.store s !! key') as [l'|] eqn:Hk'; [|done].
      rewrite lookup_insert_ne; [done|]. intros ->. apply Hne. eauto. }
    destruct (Js.gt now (resetTime r)); intros [= <- <-]; simpl;
      (split; [done|]); destruct (MemoryStore.store s !! key'); simpl in *;
      try done; apply (Hframe _).
  - intros [= <- <-]. simpl. rewrite lookup_insert_ne by done.
    split; [done|].
    destruct (MemoryStore.store s !! key') as [l'|] eqn:Hk'; [|done].
    rewrite lookup_insert_ne; [done|]. intros Heq. subst l'.
    by apply FrameFacts.fresh_not_stored in Hk'.
Qed.

End FrameProof.

(** X1.  A call of [MemoryStore.increment] for one key changes nothing for
    any other key: [get] returns the same object for it as before, with the
    same fields. *)
Theorem increment_leaves_other_keys (s s' : MemoryStore.t) (now : Z)
    (key key' : string) (w : Z) (l : positive) :
  MemoryStore.wf s →
  Trace.separate s →
  key ≠ key' →
  MemoryStore.increment s now key w = Js.Ok (l, s') →
  MemoryStore.get s' key' = MemoryStore.get s key' ∧
  MemoryStore.peek s' key' = MemoryStore.peek s key'.
Proof. apply FrameProof.increment_frame. Qed.

(** A hit for "ip2" leaves the three hits of "ip1" as they are. *)
Lemma increment_leaves_other_keys_witness :
  let s := {| MemoryStore.store := {["ip1" := 1%positive]};
              MemoryStore.heap := {[1%positive := mkRecord 3 1000]} |} in
  ∃ l s', MemoryStore.increment s 10 "ip2" 1000 = Js.Ok (l, s') ∧
          MemoryStore.peek s' "ip1" = MemoryStore.peek s "ip1".
Proof.
  intros s. eexists _, _. split; [reflexivity|].
  refine (proj2 (increment_leaves_other_keys s _ 10 "ip2" "ip1" 1000 _ _ _ _ eq_refl)).
  - intros key l Hk. subst s. simpl in *.
    apply lookup_singleton_Some in Hk as [_ <-]. by eexists.
  - intros k1 k2 l H1 H2. subst s. simpl in *.
    apply lookup_singleton_Some in H1 as [<- _].
    by apply lookup_singleton_Some in H2 as [<- _].
  - done.
Defined.

(** X2.  Whatever calls of [increment] and firings of the sweep a store
    constructed by [new MemoryStore()] goes through, none of the calls
    throws, and the store keeps its shape: every key is bound to a record
    object, no object is shared by two keys, and every record counts at
    least one hit. *)
Theorem memory_store_never_throws (ops : list Trace.Op) :
  ∃ s, Trace.exec MemoryStore.new ops = Js.Ok s ∧
       MemoryStore.wf s ∧ Trace.separate s ∧ MemoryStore.counted s.
Proof.
  cut (∀ s0, MemoryStore.wf s0 → Trace.separate s0 → MemoryStore.counted s0 →
             ∃ s, Trace.exec s0 ops = Js.Ok s ∧
                  MemoryStore.wf s ∧ Trace.separate s ∧ MemoryStore.counted s).
  { intros H. apply H; [apply MemoryStoreFacts.wf_new | apply FrameFacts.separate_new
                        | apply MemoryStoreFacts.counted_new]. }
  induction ops as [|o rest IH]; intros s0 Hwf Hsep Hc; simpl.
  - eauto.
  - destruct o as [now key w|now]; simpl.
    + destruct (MemoryStoreFacts.increment_total s0 now key w Hwf) as (l & s1 & Hinc).
      rewrite Hinc. apply IH.
      * by eapply MemoryStoreFacts.wf_increment.
      * by eapply FrameFacts.separate_increment.
      * by eapply MemoryStoreFacts.increment_counted.
    + apply IH; [by apply MemoryStoreFacts.wf_cleanup
                | by apply FrameFacts.separate_cleanup
                | by apply FrameFacts.counted_cleanup].
Qed.

(** ** MemoryStore: the sweep *)

(** X3.  A sweep at a time [t2] makes every earlier sweep redundant:
    sweeping at [t1 ≤ t2] and then at [t2] leaves the store that a single
    sweep at [t2] leaves.  In particular a sweep repeated at the same time
    changes nothing more. *)
Theorem cleanup_absorbs_earlier (s : MemoryStore.t) (t1 t2 : Z) :
  t1 ≤ t2 →
  MemoryStore.cleanup (MemoryStore.cleanup s t1) t2 = MemoryStore.cleanup s t2 ∧
  MemoryStore.cleanup (MemoryStore.cleanup s t2) t2 = MemoryStore.cleanup s t2.
Proof.
  intros Hle.
  assert (∀ a b, a ≤ b →
            MemoryStore.cleanup (MemoryStore.cleanup s a) b = MemoryStore.cleanup s b) as H.
  { intros a b Hab. unfold MemoryStore.cleanup. simpl. f_equal.
    apply (map_filter_filter_l
             (λ e : string * positive,
                MemoryStore.expired
                  {| MemoryStore.store :=
                       filter (λ e0, MemoryStore.expired s a e0.2 = false) (MemoryStore.store s);
                     MemoryStore.heap := MemoryStore.heap s |} b e.2 = false)
             (λ e : string * positive, MemoryStore.expired s a e.2 = false)).
    intros key l _. unfold MemoryStore.expired. simpl.
    destruct (MemoryStore.heap s !! l) as [r|]; [|done].
    rewrite !gt_false. lia. }
  split; [by apply H | apply H; lia].
Qed.

Lemma cleanup_absorbs_earlier_witness :
  let s := {| MemoryStore.store := {["old" := 1%positive; "new" := 2%positive]};
              MemoryStore.heap := {[1%positive := mkRecord 4 1000;
                                    2%positive := mkRecord 1 2000]} |} in
  MemoryStore.cleanup (MemoryStore.cleanup s 500) 1500 = MemoryStore.cleanup s 1500.
Proof.
  intros s. refine (proj1 (cleanup_absorbs_earlier s 500 1500 _)). lia.
Defined.

(** ** The record a call computes *)

Module RecordFacts.
Import MemoryStore MemoryStoreFacts.

(** Through the store interface, [MemoryStore] hands out the record that
    [RedisStore.next_record] computes from the record it held. *)
Lemma memory_increment_record (s : t) (now : Z) (key : string) (w : Z) :
  wf s →
  ∃ s', store_increment s now key w
          = Js.Ok (RedisStore.next_record now w (peek s key), s') ∧
        peek s' key = Some (RedisStore.next_record now w (peek s key)).
Proof.
  intros Hwf. unfold store_increment, MemoryStore_Store.
  destruct (store s !! key) as [l|] eqn:Hk.
  - destruct (Hwf _ _ Hk) as [r Hr].
    assert (peek s key = Some r) as -> by (apply peek_Some; eauto).
    unfold RedisStore.next_record.
    destruct (Js.gt now (resetTime r)) eqn:Hgt.
    + apply gt_true in Hgt. rewrite (increment_expired _ _ _ _ _ _ Hk Hr Hgt).
      unfold deref. simpl. rewrite lookup_insert_eq. eexists. split; [done|].
      apply peek_Some. exists l. simpl. by rewrite lookup_insert_eq.
    + apply gt_false in Hgt. rewrite (increment_live _ _ _ _ _ _ Hk Hr Hgt).
      unfold deref. simpl. rewrite lookup_insert_eq. eexists. split; [done|].
      apply peek_Some. exists l. simpl. by rewrite lookup_insert_eq.
  - assert (peek s key = None) as -> by (by apply peek_None).
    rewrite (increment_absent _ _ _ _ Hk). unfold deref. simpl.
    rewrite lookup_insert_eq. eexists. split; [done|].
    apply peek_Some. eexists. simpl. by rewrite !lookup_insert_eq.
Qed.

Lemma peek_cleanup_absent (s : t) (now : Z) (key : string) :
  wf s → peek s key = None → peek (cleanup s now) key = None.
Proof.
  intros Hwf Hnone%peek_None; [|done].
  unfold peek, get, cleanup. simpl.
  assert (filter (λ e, expired s now e.2 = false) (store s) !! key = None) as ->; [|done].
  apply map_lookup_filter_None. by left.
Qed.

End RecordFacts.

(** X4.  The sweep only reclaims memory, it never changes a count: a call
    of [increment] made at or after a sweep returns, and leaves in the
    store, the same record as if the sweep had not fired. *)
Theorem sweep_is_invisible_to_increment (s : MemoryStore.t) (t now : Z)
    (key : string) (w : Z) :
  MemoryStore.wf s →
  t ≤ now →
  ∃ record s1 s2,
    store_increment (MemoryStore.cleanup s t) now key w = Js.Ok (record, s1) ∧
    store_increment s now key w = Js.Ok (record, s2) ∧
    MemoryStore.peek s1 key = Some record ∧
    MemoryStore.peek s2 key = Some record.
Proof.
  intros Hwf Hle.
  destruct (RecordFacts.memory_increment_record (MemoryStore.cleanup s t) now key w)
    as (s1 & Hinc1 & Hpeek1); [by apply MemoryStoreFacts.wf_cleanup|].
  destruct (RecordFacts.memory_increment_record s now key w Hwf) as (s2 & Hinc2 & Hpeek2).
  assert (RedisStore.next_record now w (MemoryStore.peek (MemoryStore.cleanup s t) key)
          = RedisStore.next_record now w (MemoryStore.peek s key)) as Heq.
  { destruct (MemoryStore.peek s key) as [r|] eqn:Hpeek.
    - destruct (decide (resetTime r < t)) as [Hlt|Hge].
      + rewrite (SharingFacts.peek_cleanup_expired _ _ _ _ Hpeek Hlt). simpl.
        by rewrite (proj2 (gt_true now (resetTime r))) by lia.
      + by rewrite (SharingFacts.peek_cleanup_live _ _ _ r Hpeek) by lia.
    - by rewrite RecordFacts.peek_cleanup_absent. }
  rewrite Heq in Hinc1, Hpeek1. eauto 10.
Qed.

(** A record that expired at 1000 is swept at 1500, or not, before a hit at
    1600: the hit starts a window at 1600 either way. *)
Lemma sweep_is_invisible_to_increment_witness :
  let s := {| MemoryStore.store := {["ip1" := 1%positive]};
              MemoryStore.heap := {[1%positive := mkRecord 7 1000]} |} in
  ∃ record s1 s2,
    store_increment (MemoryStore.cleanup s 1500) 1600 "ip1" 1000 = Js.Ok (record, s1) ∧
    store_increment s 1600 "ip1" 1000 = Js.Ok (record, s2) ∧
    MemoryStore.peek s1 "ip1" = Some record ∧
    MemoryStore.peek s2 "ip1" = Some record.
Proof.
  intros s. apply (sweep_is_invisible_to_increment s 1500 1600 "ip1" 1000); [|lia].
  intros key l Hk. subst s. simpl in *.
  apply lookup_singleton_Some in Hk as [_ <-]. by eexists.
Defined.

(** X5.  The two stores count alike: when the Redis client replies with the
    record the [MemoryStore] holds for the key (or [null] when it holds
    none) and its write succeeds, [RedisStore.increment] and
    [MemoryStore.increment] return records with the same [hits] and
    [resetTime]. *)
Theorem stores_return_the_same_record {C : Type} `{!RedisStore.Client C}
    (s : MemoryStore.t) (c : C) (now : Z) (key : string) (w : Z) :
  MemoryStore.wf s →
  RedisStore.client_get c now (RedisStore.redisKey key)
    = Js.Ok (MemoryStore.peek s key) →
  (∀ ttl record, ∃ c',
      RedisStore.client_setEx c now (RedisStore.redisKey key) ttl record = Js.Ok c') →
  ∃ record s' c',
    store_increment s now key w = Js.Ok (record, s') ∧
    RedisStore.increment c now key w = Js.Ok (record, c').
Proof.
  intros Hwf Hget Hset.
  destruct (RecordFacts.memory_increment_record s now key w Hwf) as (s' & Hinc & _).
  set (record := RedisStore.next_record now w (MemoryStore.peek s key)) in *.
  destruct (Hset (Js.ceil_div (resetTime record - now) 1000) record) as [c' Hc'].
  exists record, s', c'. split; [done|].
  unfold RedisStore.increment. rewrite Hget. simpl.
  unfold RedisStore.write_back. fold record. by rewrite Hc'.
Qed.

Lemma stores_return_the_same_record_witness :
  let s := {| MemoryStore.store := {["ip1" := 1%positive]};
              MemoryStore.heap := {[1%positive := mkRecord 2 1000]} |} in
  let c := RedisStore.mkServer
             {[RedisStore.redisKey "ip1" := (mkRecord 2 1000, 1000)]} true in
  ∃ record s' c',
    store_increment s 400 "ip1" 1000 = Js.Ok (record, s') ∧
    RedisStore.increment c 400 "ip1" 1000 = Js.Ok (record, c').
Proof.
  intros s c. apply (stores_return_the_same_record s c 400 "ip1" 1000).
  - intros key l Hk. subst s. simpl in *.
    apply lookup_singleton_Some in Hk as [_ <-]. by eexists.
  - reflexivity.
  - intros ttl record. eexists. reflexivity.
Defined.

(** Four calls made together at times 0, 5, 3 and 1000, with a window of
    one second. *)
Lemma replay_counts_every_call_witness :
  ∃ s', MemoryStore.replay MemoryStore.new "ip1" 1000 [0; 5; 3; 1000] = Js.Ok s' ∧
        MemoryStore.peek s' "ip1" = Some (mkRecord 4 1000).
Proof.
  refine (ConcurrencyFacts.replay_counts_every_call MemoryStore.new "ip1" 1000 0
            [5; 3; 1000] eq_refl _).
  repeat constructor; lia.
Defined.

(** ** The rate-limit headers *)

Section header_facts.
Context {S : Type} `{!Store S}.
Implicit Types (config : @Config S) (st : MemoryStore.t + S) (req : Request).

Lemma limit_headers_on config record :
  headers config = true →
  limit_headers config record !! "X-RateLimit-Limit" = Some (max config) ∧
  limit_headers config record !! "X-RateLimit-Remaining"
    = Some (Z.max 0 (max config - hits record)) ∧
  limit_headers config record !! "X-RateLimit-Reset"
    = Some (Js.ceil_div (resetTime record) 1000).
Proof.
  intros Hh. unfold limit_headers. rewrite Hh. split; [|split].
  - rewrite !lookup_insert_ne by done. apply lookup_insert_eq.
  - rewrite lookup_insert_ne by done. apply lookup_insert_eq.
  - apply lookup_insert_eq.
Qed.

(** The rejection branch adds [Retry-After] at most. *)
Lemma limit_exceeded_keeps_headers config st now' req record hs (k : string) :
  k ≠ "Retry-After" →
  resHeaders (limit_exceeded config st now' req record hs) !! k = hs !! k.
Proof.
  intros Hk. unfold limit_exceeded.
  destruct (onLimitReached config) as [f|]; [destruct (f req)|];
    destruct (handler config) as [h|]; try destruct (h req);
    destruct (headers config); simpl; try done;
    by rewrite lookup_insert_ne.
Qed.

Lemma limit_exceeded_off config st now' req record :
  headers config = false →
  resHeaders (limit_exceeded config st now' req record ∅) = ∅.
Proof.
  intros Hh. unfold limit_exceeded. rewrite Hh.
  destruct (onLimitReached config) as [f|]; [destruct (f req)|];
    destruct (handler config) as [h|]; try destruct (h req); done.
Qed.

(** The second branch of [middleware_counted], by header. *)
Lemma counted_reply_headers config st now' req record (k : string) :
  k ≠ "Retry-After" →
  resHeaders (if Js.gt (hits record) (max config)
              then limit_exceeded config st now' req record (limit_headers config record)
              else mkReply Next (limit_headers config record) st) !! k
    = limit_headers config record !! k.
Proof.
  intros Hk. destruct (Js.gt _ _); [by apply limit_exceeded_keeps_headers | done].
Qed.

Lemma ceil_div_bounds (x : Z) :
  x ≤ 1000 * Js.ceil_div x 1000 < x + 1000.
Proof.
  unfold Js.ceil_div.
  pose proof (Z.div_mod (- x) 1000 ltac:(lia)) as Hdm.
  pose proof (Z.mod_pos_bound (- x) 1000 ltac:(lia)) as Hb. lia.
Qed.

End header_facts.

(** X7.  For a counted request with headers enabled, the reply carries
    [X-RateLimit-Limit = max], [X-RateLimit-Remaining = max(0, max - hits)]
    and [X-RateLimit-Reset], whether it is admitted or rejected.  The
    remaining quota is never negative: it is [max - hits] on an admitted
    request and 0 on a rejected one.  The reset value is the window's end in
    whole epoch seconds, rounded up: the first second at or after
    [resetTime]. *)
Theorem rate_limit_headers {S : Type} `{!Store S} (config : @Config S)
    (st st' : MemoryStore.t + S) (now now' : Z) (req : Request)
    (key : string) (record : WindowRecord) :
  skip config req = Js.Ok false →
  keyGenerator config req = Js.Ok key →
  store_increment st now key (windowMs config) = Js.Ok (record, st') →
  headers config = true →
  ∃ remaining reset,
    resHeaders (middleware config st now now' req) !! "X-RateLimit-Limit"
      = Some (max config) ∧
    resHeaders (middleware config st now now' req) !! "X-RateLimit-Remaining"
      = Some remaining ∧
    resHeaders (middleware config st now now' req) !! "X-RateLimit-Reset"
      = Some reset ∧
    0 ≤ remaining ∧
    (outcome (middleware config st now now' req) = Next →
     remaining = max config - hits record) ∧
    (outcome (middleware config st now now' req) ≠ Next → remaining = 0) ∧
    resetTime record ≤ 1000 * reset < resetTime record + 1000.
Proof.
  intros Hs Hkey Hinc Hh.
  pose proof (middleware_counted_next config st st' now now' req key record Hs Hkey Hinc)
    as Hnext.
  rewrite (middleware_counted _ _ _ _ _ _ _ _ Hs Hkey Hinc) in *.
  destruct (limit_headers_on config record Hh) as (Hl & Hr & Ht).
  exists (Z.max 0 (max config - hits record)), (Js.ceil_div (resetTime record) 1000).
  rewrite !counted_reply_headers by done.
  split; [done|]. split; [done|]. split; [done|]. split; [lia|].
  split; [|split].
  - intros Hn. apply Hnext in Hn. lia.
  - intros Hn. destruct (decide (hits record ≤ max config)) as [Hle|Hgt]; [|lia].
    by apply Hnext in Hle.
  - apply ceil_div_bounds.
Qed.

Lemma rate_limit_headers_witness :
  ∃ remaining reset,
    resHeaders (middleware two_per_second (inl MemoryStore.new) 1500 1500
                  (mkRequest "ip1" "/")) !! "X-RateLimit-Limit"
      = Some (max two_per_second) ∧
    resHeaders (middleware two_per_second (inl MemoryStore.new) 1500 1500
                  (mkRequest "ip1" "/")) !! "X-RateLimit-Remaining"
      = Some remaining ∧
    resHeaders (middleware two_per_second (inl MemoryStore.new) 1500 1500
                  (mkRequest "ip1" "/")) !! "X-RateLimit-Reset"
      = Some reset ∧
    0 ≤ remaining ∧
    (outcome (middleware two_per_second (inl MemoryStore.new) 1500 1500
                (mkRequest "ip1" "/")) = Next →
     remaining = max two_per_second - hits (mkRecord 1 2500)) ∧
    (outcome (middleware two_per_second (inl MemoryStore.new) 1500 1500
                (mkRequest "ip1" "/")) ≠ Next → remaining = 0) ∧
    resetTime (mkRecord 1 2500) ≤ 1000 * reset < resetTime (mkRecord 1 2500) + 1000.
Proof.
  refine (rate_limit_headers two_per_second (inl MemoryStore.new) _ 1500 1500
            (mkRequest "ip1" "/") "ip1" (mkRecord 1 2500) _ _ _ _); reflexivity.
Defined.

(** X8.  With [headers: false] the middleware sets no header at all, on any
    request and whatever the store, the callbacks and the clock do: not the
    three rate-limit headers, and not [Retry-After] on a rejection. *)
Theorem headers_off_sets_no_header {S : Type} `{!Store S} (config : @Config S)
    (st : MemoryStore.t + S) (now now' : Z) (req : Request) :
  headers config = false →
  resHeaders (middleware config st now now' req) = ∅.
Proof.
  intros Hh. unfold middleware.
  destruct (skip config req) as [[|]|e]; [done| |done].
  destruct (keyGenerator config req) as [key|e]; [|done].
  destruct (store_increment st now key (windowMs config)) as [[record st']|e]; [|done].
  assert (limit_headers config record = ∅) as ->
    by (unfold limit_headers; by rewrite Hh).
  destruct (Js.gt (hits record) (max config)); [|done].
  by apply limit_exceeded_off.
Qed.

Lemma headers_off_sets_no_header_witness :
  let config : @Config RedisStore.Server :=
    {| windowMs := 1000; max := 0;
       message := "Too many requests, please try again later.";
       statusCode := 429;
       keyGenerator := λ req, Js.Ok (ip req);
       skip := λ _, Js.Ok false;
       store := inl MemoryStore.new;
       headers := false; handler := None; onLimitReached := None; other := [] |} in
  outcome (middleware config (store config) 0 0 (mkRequest "ip1" "/"))
    = Json 429 false "Too many requests, please try again later." ∧
  resHeaders (middleware config (store config) 0 0 (mkRequest "ip1" "/")) = ∅.
Proof.
  intros config. split; [reflexivity|].
  apply (headers_off_sets_no_header config). reflexivity.
Defined.

(** ** A window on the default store, request by request *)

Section window_facts.
Context {S : Type} `{!Store S}.
Implicit Types (config : @Config S) (m : MemoryStore.t) (req : Request).

Lemma serve_length config (st : MemoryStore.t + S) reqs :
  length (serve config st reqs) = length reqs.
Proof.
  revert st. induction reqs as [|[[now now'] req] rest IH]; intros st; simpl; [done|].
  by rewrite IH.
Qed.

Lemma serve_app config (st : MemoryStore.t + S) reqs1 reqs2 :
  serve config st (reqs1 ++ reqs2)
    = serve config st reqs1 ++ serve config (Trace.serve_store config st reqs1) reqs2.
Proof.
  revert st. induction reqs1 as [|[[now now'] req] rest IH]; intros st; simpl; [done|].
  by rewrite IH.
Qed.

Lemma store_increment_expired m now key w l r :
  MemoryStore.store m !! key = Some l →
  MemoryStore.heap m !! l = Some r →
  resetTime r < now →
  ∃ m', store_increment (inl m : MemoryStore.t + S) now key w
          = Js.Ok (mkRecord 1 (now + w), inl m') ∧
        MemoryStore.store m' !! key = Some l ∧
        MemoryStore.heap m' !! l = Some (mkRecord 1 (now + w)).
Proof.
  intros Hk Hl Hlt. eexists. split.
  - unfold store_increment, sum_Store, store_increment, MemoryStore_Store.
    rewrite (MemoryStoreFacts.increment_expired _ _ _ _ _ _ Hk Hl Hlt).
    unfold MemoryStore.deref. simpl. by rewrite lookup_insert_eq.
  - simpl. by rewrite lookup_insert_eq.
Qed.

(** The i-th request served within the window of [r] is decided on a record
    of [hits r + i + 1] hits. *)
Lemma serve_live_reply config m key l r reqs :
  MemoryStore.store m !! key = Some l →
  MemoryStore.heap m !! l = Some r →
  in_window config key r reqs →
  ∀ (i : nat) reply, serve config (inl m) reqs !! i = Some reply →
    ∃ now' req st',
      reply =
        let record := mkRecord (hits r + Z.of_nat i + 1) (resetTime r) in
        if Js.gt (hits record) (max config)
        then limit_exceeded config st' now' req record (limit_headers config record)
        else mkReply Next (limit_headers config record) st'.
Proof.
  intros Hk Hl Hreqs. revert m r Hk Hl Hreqs.
  induction reqs as [|[[now now'] req] rest IH]; intros m r Hk Hl Hreqs i reply Hi.
  - done.
  - apply Forall_cons in Hreqs as [(Hle & Hs & Hkey) Hrest]. simpl in Hle, Hs, Hkey.
    destruct (store_increment_live m now key (windowMs config) l r Hk Hl Hle)
      as (m' & Hinc & Hk' & Hl').
    simpl in Hi. destruct i as [|i]; simpl in Hi.
    + injection Hi as <-. exists now', req, (inl m').
      rewrite (middleware_counted _ _ _ _ _ _ _ _ Hs Hkey Hinc). cbv zeta.
      by replace (hits r + Z.of_nat 0 + 1) with (hits r + 1) by lia.
    + rewrite (middleware_counted_store _ _ _ _ _ _ _ _ Hs Hkey Hinc) in Hi.
      destruct (IH m' _ Hk' Hl' Hrest i reply Hi) as (n' & rq & st' & ->).
      exists n', rq, st'. cbv zeta. cbn [hits resetTime].
      by replace (hits r + 1 + Z.of_nat i + 1) with (hits r + Z.of_nat (Datatypes.S i) + 1) by lia.
Qed.

(** The record left by requests served within its window. *)
Lemma serve_store_live config m key l r reqs :
  MemoryStore.store m !! key = Some l →
  MemoryStore.heap m !! l = Some r →
  in_window config key r reqs →
  ∃ m', Trace.serve_store config (inl m) reqs = inl m' ∧
        MemoryStore.store m' !! key = Some l ∧
        MemoryStore.heap m' !! l
          = Some (mkRecord (hits r + Z.of_nat (length reqs)) (resetTime r)).
Proof.
  intros Hk Hl Hreqs. revert m r Hk Hl Hreqs.
  induction reqs as [|[[now now'] req] rest IH]; intros m r Hk Hl Hreqs.
  - exists m. simpl. split; [done|]. split; [done|].
    rewrite Hl. f_equal. destruct r; simpl; f_equal; lia.
  - apply Forall_cons in Hreqs as [(Hle & Hs & Hkey) Hrest]. simpl in Hle, Hs, Hkey.
    destruct (store_increment_live m now key (windowMs config) l r Hk Hl Hle)
      as (m' & Hinc & Hk' & Hl').
    simpl. rewrite (middleware_counted_store _ _ _ _ _ _ _ _ Hs Hkey Hinc).
    destruct (IH m' _ Hk' Hl' Hrest) as (m'' & Hrun & Hk'' & Hl'').
    exists m''. split; [done|]. split; [done|].
    rewrite Hl''. simpl. do 2 f_equal. lia.
Qed.

(** Requests within a window whose count stays at or below [max] are all
    admitted. *)
Lemma serve_live_all_admitted config m key l r reqs :
  MemoryStore.store m !! key = Some l →
  MemoryStore.heap m !! l = Some r →
  in_window config key r reqs →
  hits r + Z.of_nat (length reqs) ≤ max config →
  Forall (λ reply, outcome reply = Next) (serve config (inl m) reqs).
Proof.
  intros Hk Hl Hreqs Hmax. apply Forall_lookup. intros i reply Hi.
  pose proof (lookup_lt_Some _ _ _ Hi) as Hlt. rewrite serve_length in Hlt.
  apply (serve_live config m key l r reqs Hk Hl Hreqs i reply Hi). lia.
Qed.

End window_facts.

(** X9.  Over the default store, when requests are served one after the
    other (each call of the middleware ends before the next request is
    counted), the requests of one window count the quota down: the n-th
    request counted for a key since the window opened carries
    [X-RateLimit-Remaining = max(0, max - n)], and every one of them carries
    the same [X-RateLimit-Reset], the end of the window that the first
    request opened. *)
Theorem remaining_counts_down {S : Type} `{!Store S} (config : @Config S)
    (m : MemoryStore.t) (key : string) (now now' : Z) (req : Request)
    (rest : list (Z * Z * Request)) :
  MemoryStore.store m !! key = None →
  skip config req = Js.Ok false →
  keyGenerator config req = Js.Ok key →
  in_window config key (mkRecord 1 (now + windowMs config)) rest →
  headers config = true →
  ∀ (n : nat) reply,
    serve config (inl m) ((now, now', req) :: rest) !! n = Some reply →
    resHeaders reply !! "X-RateLimit-Remaining"
      = Some (Z.max 0 (max config - (Z.of_nat n + 1))) ∧
    resHeaders reply !! "X-RateLimit-Reset"
      = Some (Js.ceil_div (now + windowMs config) 1000).
Proof.
  intros Hk Hs Hkey Hrest Hh n reply Hn.
  destruct (store_increment_absent (S := S) m now key (windowMs config) Hk)
    as (l & m' & Hinc & Hk' & Hl').
  simpl in Hn. destruct n as [|n]; simpl in Hn.
  - injection Hn as <-. rewrite (middleware_counted _ _ _ _ _ _ _ _ Hs Hkey Hinc).
    rewrite !counted_reply_headers by done.
    destruct (limit_headers_on config (mkRecord 1 (now + windowMs config)) Hh)
      as (_ & -> & ->). done.
  - rewrite (middleware_counted_store _ _ _ _ _ _ _ _ Hs Hkey Hinc) in Hn.
    destruct (serve_live_reply config m' key l _ rest Hk' Hl' Hrest n reply Hn)
      as (n' & rq & st' & ->).
    cbv zeta. rewrite !counted_reply_headers by done.
    destruct (limit_headers_on config
                (mkRecord (hits (mkRecord 1 (now + windowMs config)) + Z.of_nat n + 1)
                   (resetTime (mkRecord 1 (now + windowMs config)))) Hh)
      as (_ & -> & ->). simpl. split; [|done]. do 2 f_equal. lia.
Qed.

(** Three requests in a window of two hits: 1, 0 and 0 remaining. *)
Lemma remaining_counts_down_witness :
  let req := mkRequest "ip1" "/" in
  ∃ reply,
    serve two_per_second (inl MemoryStore.new) [(0, 0, req); (1, 1, req); (2, 2, req)]
      !! 1%nat = Some reply ∧
    resHeaders reply !! "X-RateLimit-Remaining"
      = Some (Z.max 0 (max two_per_second - (Z.of_nat 1 + 1))) ∧
    resHeaders reply !! "X-RateLimit-Reset"
      = Some (Js.ceil_div (0 + windowMs two_per_second) 1000).
Proof.
  intros req. eexists. split; [reflexivity|].
  apply (remaining_counts_down two_per_second MemoryStore.new "ip1" 0 0 req
           [(1, 1, req); (2, 2, req)] eq_refl eq_refl eq_refl); [|reflexivity..].
  repeat constructor; simpl; lia.
Defined.

(** X10.  The window is fixed, not sliding.  Over the default store and for
    requests served one after the other: when a client makes at most [max]
    requests in the window that its first request opens, and its next
    request arrives after that window's end and opens a window in which it
    again makes at most [max] requests, all these requests are admitted:
    the count restarts at the window's end. *)
Theorem fixed_window_allows_double_burst {S : Type} `{!Store S} (config : @Config S)
    (m : MemoryStore.t) (key : string)
    (t1 t1' : Z) (req1 : Request) (rest1 : list (Z * Z * Request))
    (t2 t2' : Z) (req2 : Request) (rest2 : list (Z * Z * Request)) :
  MemoryStore.store m !! key = None →
  skip config req1 = Js.Ok false → keyGenerator config req1 = Js.Ok key →
  skip config req2 = Js.Ok false → keyGenerator config req2 = Js.Ok key →
  in_window config key (mkRecord 1 (t1 + windowMs config)) rest1 →
  t1 + windowMs config < t2 →
  in_window config key (mkRecord 1 (t2 + windowMs config)) rest2 →
  Z.of_nat (length ((t1, t1', req1) :: rest1)) ≤ max config →
  Z.of_nat (length ((t2, t2', req2) :: rest2)) ≤ max config →
  Forall (λ reply, outcome reply = Next)
    (serve config (inl m) (((t1, t1', req1) :: rest1) ++ (t2, t2', req2) :: rest2)).
Proof.
  intros Hk Hs1 Hkey1 Hs2 Hkey2 Hrest1 Hgap Hrest2 Hmax1 Hmax2.
  simpl length in Hmax1, Hmax2.
  destruct (store_increment_absent (S := S) m t1 key (windowMs config) Hk)
    as (l & m1 & Hinc1 & Hk1 & Hl1).
  destruct (serve_store_live config m1 key l _ rest1 Hk1 Hl1 Hrest1)
    as (m2 & Hrun & Hk2 & Hl2).
  destruct (store_increment_expired (S := S) m2 t2 key (windowMs config) l _ Hk2 Hl2 Hgap)
    as (m3 & Hinc3 & Hk3 & Hl3).
  rewrite serve_app. apply Forall_app. split.
  - simpl. constructor.
    + apply (middleware_counted_next _ _ _ _ _ _ _ _ Hs1 Hkey1 Hinc1). simpl. lia.
    + rewrite (middleware_counted_store _ _ _ _ _ _ _ _ Hs1 Hkey1 Hinc1).
      apply (serve_live_all_admitted config m1 key l _ rest1 Hk1 Hl1 Hrest1).
      simpl. lia.
  - simpl Trace.serve_store.
    rewrite (middleware_counted_store _ _ _ _ _ _ _ _ Hs1 Hkey1 Hinc1), Hrun.
    simpl. constructor.
    + apply (middleware_counted_next _ _ _ _ _ _ _ _ Hs2 Hkey2 Hinc3). simpl. lia.
    + rewrite (middleware_counted_store _ _ _ _ _ _ _ _ Hs2 Hkey2 Hinc3).
      apply (serve_live_all_admitted config m3 key l _ rest2 Hk3 Hl3 Hrest2).
      simpl. lia.
Qed.

(** With two hits per second: hits at 0 and 1000 fill the first window, hits
    at 1001 and 1002 the next; the requests at 1000, 1001 and 1002 are all
    admitted. *)
Lemma fixed_window_allows_double_burst_witness :
  let req := mkRequest "ip1" "/" in
  Forall (λ reply, outcome reply = Next)
    (serve two_per_second (inl MemoryStore.new)
       ([(0, 0, req); (1000, 1000, req)] ++ [(1001, 1001, req); (1002, 1002, req)])).
Proof.
  intros req.
  apply (fixed_window_allows_double_burst two_per_second MemoryStore.new "ip1"
           0 0 req [(1000, 1000, req)] 1001 1001 req [(1002, 1002, req)]);
    first [reflexivity | repeat constructor; simpl; lia | simpl; lia].
Defined.

(** ** Clients do not share quota *)

Section isolation_facts.
Context {S : Type} `{!Store S}.
Implicit Types (config : @Config S) (m : MemoryStore.t) (req : Request).

(** What the client sees of a rejection does not depend on the store. *)
Lemma limit_exceeded_visible config (st1 st2 : MemoryStore.t + S) now' req record hs :
  Trace.visible (limit_exceeded config st1 now' req record hs)
    = Trace.visible (limit_exceeded config st2 now' req record hs).
Proof.
  unfold limit_exceeded, Trace.visible.
  destruct (onLimitReached config) as [f|]; [destruct (f req)|];
    destruct (handler config) as [h|]; try destruct (h req); done.
Qed.

(** One hit on the default store: the record handed to the middleware, the
    shape of the store, and the other keys. *)
Lemma default_increment m now key w :
  MemoryStore.wf m → Trace.separate m →
  ∃ m', store_increment (inl m : MemoryStore.t + S) now key w
          = Js.Ok (RedisStore.next_record now w (MemoryStore.peek m key), inl m') ∧
        MemoryStore.wf m' ∧ Trace.separate m' ∧
        MemoryStore.peek m' key
          = Some (RedisStore.next_record now w (MemoryStore.peek m key)) ∧
        ∀ key', key ≠ key' → MemoryStore.peek m' key' = MemoryStore.peek m key'.
Proof.
  intros Hwf Hsep.
  destruct (MemoryStoreFacts.increment_total m now key w Hwf) as (l & m' & Hinc).
  destruct (RecordFacts.memory_increment_record m now key w Hwf) as (s' & Hrec & Hpeek).
  unfold store_increment, MemoryStore_Store in Hrec. rewrite Hinc in Hrec.
  exists m'. unfold store_increment, sum_Store, store_increment, MemoryStore_Store.
  rewrite Hinc. destruct (MemoryStore.deref m' l) as [r|]; [|done].
  injection Hrec as -> <-.
  split; [done|]. split; [by eapply MemoryStoreFacts.wf_increment|].
  split; [by eapply FrameFacts.separate_increment|]. split; [done|].
  intros key' Hne. by eapply FrameProof.increment_frame.
Qed.

(** A request that is not counted against [key] leaves the record of [key]
    alone. *)
Lemma middleware_other config m key now now' req :
  MemoryStore.wf m → Trace.separate m →
  Trace.counts_for config key (now, now', req) = false →
  ∃ m', store_after (middleware config (inl m) now now' req) = inl m' ∧
        MemoryStore.wf m' ∧ Trace.separate m' ∧
        MemoryStore.peek m' key = MemoryStore.peek m key.
Proof.
  intros Hwf Hsep. unfold Trace.counts_for, middleware. simpl.
  destruct (skip config req) as [[|]|e]; [by exists m| |by exists m].
  destruct (keyGenerator config req) as [k|e]; [|by exists m].
  intros Hne%bool_decide_eq_false.
  destruct (default_increment m now k (windowMs config) Hwf Hsep)
    as (m' & -> & Hwf' & Hsep' & _ & Hframe).
  exists m'. split.
  - destruct (Js.gt _ _); [apply limit_exceeded_store | done].
  - split; [done|]. split; [done|]. by apply Hframe.
Qed.

(** A request counted against [key] gets the same reply from two stores
    that hold the same record for [key]. *)
Lemma middleware_mine config m1 m2 key now now' req :
  MemoryStore.wf m1 → Trace.separate m1 →
  MemoryStore.wf m2 → Trace.separate m2 →
  MemoryStore.peek m1 key = MemoryStore.peek m2 key →
  Trace.counts_for config key (now, now', req) = true →
  ∃ m1' m2',
    store_after (middleware config (inl m1) now now' req) = inl m1' ∧
    store_after (middleware config (inl m2) now now' req) = inl m2' ∧
    MemoryStore.wf m1' ∧ Trace.separate m1' ∧
    MemoryStore.wf m2' ∧ Trace.separate m2' ∧
    MemoryStore.peek m1' key = MemoryStore.peek m2' key ∧
    Trace.visible (middleware config (inl m1) now now' req)
      = Trace.visible (middleware config (inl m2) now now' req).
Proof.
  intros Hwf1 Hsep1 Hwf2 Hsep2 Hpeek. unfold Trace.counts_for, middleware. simpl.
  destruct (skip config req) as [[|]|e]; [done| |done].
  destruct (keyGenerator config req) as [k|e]; [|done].
  intros ->%bool_decide_eq_true.
  destruct (default_increment m1 now key (windowMs config) Hwf1 Hsep1)
    as (m1' & -> & Hwf1' & Hsep1' & Hp1 & _).
  destruct (default_increment m2 now key (windowMs config) Hwf2 Hsep2)
    as (m2' & -> & Hwf2' & Hsep2' & Hp2 & _).
  rewrite <- Hpeek in *.
  exists m1', m2'.
  destruct (Js.gt _ _).
  - rewrite !limit_exceeded_store.
    repeat (split; [done|]). split; [congruence|]. apply limit_exceeded_visible.
  - simpl. repeat (split; [done|]). split; [congruence|]. done.
Qed.


End isolation_facts.

(** X11.  Over the default store, the traffic of other clients and the
    requests that are skipped take nothing from a client's quota.  Take any
    sequence of requests and a key.  The requests counted against the key
    (not skipped, and keyed to it by [keyGenerator]) get the replies, with
    the same outcome and the same headers, that they would get if they were
    the only requests served. *)
Theorem clients_do_not_share_quota {S : Type} `{!Store S} (config : @Config S)
    (m : MemoryStore.t) (key : string) (reqs : list (Z * Z * Request)) :
  MemoryStore.wf m →
  Trace.separate m →
  Trace.visible <$>
    (filter (λ p, Trace.counts_for config key p.1 = true)
       (zip reqs (serve config (inl m) reqs))).*2
  = Trace.visible <$>
      serve config (inl m) (filter (λ e, Trace.counts_for config key e = true) reqs).
Proof.
  intros Hwf Hsep.
  cut (∀ m1 m2,
         MemoryStore.wf m1 → Trace.separate m1 →
         MemoryStore.wf m2 → Trace.separate m2 →
         MemoryStore.peek m1 key = MemoryStore.peek m2 key →
         Trace.visible <$>
           (filter (λ p, Trace.counts_for config key p.1 = true)
              (zip reqs (serve config (inl m1) reqs))).*2
         = Trace.visible <$>
             serve config (inl m2)
               (filter (λ e, Trace.counts_for config key e = true) reqs)).
  { intros H. by apply H. }
  clear m Hwf Hsep.
  induction reqs as [|[[now now'] req] rest IH];
    intros m1 m2 Hwf1 Hsep1 Hwf2 Hsep2 Hpeek; [done|].
  simpl serve. simpl zip.
  destruct (Trace.counts_for config key (now, now', req)) eqn:Hc.
  - rewrite !filter_cons_True by done. simpl.
    destruct (middleware_mine config m1 m2 key now now' req Hwf1 Hsep1 Hwf2 Hsep2 Hpeek Hc)
      as (m1' & m2' & -> & -> & Hwf1' & Hsep1' & Hwf2' & Hsep2' & Hpeek' & ->).
    f_equal. by apply IH.
  - rewrite !filter_cons_False by (simpl; congruence).
    destruct (middleware_other config m1 key now now' req Hwf1 Hsep1 Hc)
      as (m1' & -> & Hwf1' & Hsep1' & Hpeek').
    apply IH; [done..|congruence].
Qed.

(** Two hits per second: "ip1" is served alone, or among five requests of
    "ip2"; its third request is the one rejected either way. *)
Lemma clients_do_not_share_quota_witness :
  let a := mkRequest "ip1" "/" in
  let b := mkRequest "ip2" "/" in
  let reqs := [(0, 0, b); (1, 1, a); (2, 2, b); (3, 3, b); (4, 4, a);
               (5, 5, b); (6, 6, a); (7, 7, b)] in
  Trace.visible <$>
    (filter (λ p, Trace.counts_for two_per_second "ip1" p.1 = true)
       (zip reqs (serve two_per_second (inl MemoryStore.new) reqs))).*2
  = Trace.visible <$>
      serve two_per_second (inl MemoryStore.new)
        (filter (λ e, Trace.counts_for two_per_second "ip1" e = true) reqs).
Proof.
  intros a b reqs.
  apply (clients_do_not_share_quota two_per_second MemoryStore.new "ip1" reqs).
  - apply MemoryStoreFacts.wf_new.
  - apply FrameFacts.separate_new.
Defined.

(** ** RedisStore: expiry and calls run one after the other *)

Module RedisFacts.
Import RedisStore.

Lemma redisKey_inj (k1 k2 : string) : redisKey k1 = redisKey k2 → k1 = k2.
Proof. unfold redisKey. apply (inj (String.append "throttle:")). Qed.

(** The record [next_record] computes does not end before [now], for a
    positive window. *)
Lemma next_record_not_ended (now w : Z) (data : option WindowRecord) :
  0 < w → now ≤ resetTime (next_record now w data).
Proof.
  intros Hw. unfold next_record. destruct data as [r|]; simpl; [|lia].
  destruct (Js.gt now (resetTime r)) eqn:Hgt; simpl; [lia|].
  by apply gt_false in Hgt.
Qed.

(** [increment] on the modelled server, when the key holds a readable
    record whose window has not ended. *)
Lemma server_increment_live (c : Server) (now : Z) (key : string) (w : Z)
    (r : WindowRecord) (e : Z) :
  reachable c = true →
  db c !! redisKey key = Some (r, e) →
  now < e → now ≤ resetTime r →
  increment c now key w =
    Js.Ok (mkRecord (hits r + 1) (resetTime r),
           {| db := <[redisKey key :=
                        (mkRecord (hits r + 1) (resetTime r),
                         now + 1000 * Js.ceil_div (resetTime r - now) 1000)]> (db c);
              reachable := true |}).
Proof.
  intros Hup Hdb He Hle. unfold increment, write_back. simpl.
  unfold server_get, server_setEx. rewrite Hup, Hdb.
  rewrite bool_decide_eq_true_2 by done. simpl.
  by rewrite (proj2 (gt_false _ _) Hle).
Qed.

Lemma server_increment_absent (c : Server) (now : Z) (key : string) (w : Z) :
  reachable c = true →
  db c !! redisKey key = None →
  increment c now key w =
    Js.Ok (mkRecord 1 (now + w),
           {| db := <[redisKey key :=
                        (mkRecord 1 (now + w),
                         now + 1000 * Js.ceil_div (now + w - now) 1000)]> (db c);
              reachable := true |}).
Proof.
  intros Hup Hdb. unfold increment, write_back. simpl.
  unfold server_get, server_setEx. by rewrite Hup, Hdb.
Qed.

Lemma redis_replay_live (c : Server) (key : string) (w : Z) (r : WindowRecord) (e : Z)
    (ts : list Z) :
  reachable c = true →
  db c !! redisKey key = Some (r, e) →
  resetTime r ≤ e →
  Forall (λ t, t < resetTime r) ts →
  ∃ c' e', Trace.redis_replay c key w ts = Js.Ok c' ∧
           reachable c' = true ∧
           db c' !! redisKey key
             = Some (mkRecord (hits r + Z.of_nat (length ts)) (resetTime r), e') ∧
           resetTime r ≤ e'.
Proof.
  intros Hup Hdb He Hts. revert c r e Hup Hdb He Hts.
  induction ts as [|t rest IH]; intros c r e Hup Hdb He Hts.
  - exists c, e. simpl. split; [done|]. split; [done|]. split; [|done].
    rewrite Hdb. do 2 f_equal. destruct r; simpl; f_equal; lia.
  - apply Forall_cons in Hts as [Hlt Hrest]. simpl.
    rewrite (server_increment_live c t key w r e Hup Hdb) by lia.
    set (c1 := mkServer _ _).
    destruct (IH c1 (mkRecord (hits r + 1) (resetTime r))
                (t + 1000 * Js.ceil_div (resetTime r - t) 1000))
      as (c' & e' & Hrun & Hup' & Hdb' & He');
      [done | apply lookup_insert_eq | | exact Hrest |].
    + simpl. pose proof (ceil_div_bounds (resetTime r - t)). lia.
    + exists c', e'. split; [done|]. split; [done|]. split; [|done].
      rewrite Hdb'. simpl. do 3 f_equal. lia.
Qed.

End RedisFacts.

(** X12.  [RedisStore.increment] writes the record with a time to live that
    is the rest of its window in whole seconds, rounded up: the key outlives
    the window by less than a second.  For a positive window the TTL is
    never negative, and it is 0 exactly when the hit arrives at the last
    millisecond of the window, [now = resetTime]. *)
Theorem redis_ttl_is_rest_of_window {C : Type} `{!RedisStore.Client C}
    (c c' : C) (now : Z) (key : string) (w : Z) (record : WindowRecord) :
  0 < w →
  RedisStore.increment c now key w = Js.Ok (record, c') →
  ∃ ttl,
    RedisStore.client_setEx c now (RedisStore.redisKey key) ttl record = Js.Ok c' ∧
    resetTime record - now ≤ 1000 * ttl < resetTime record - now + 1000 ∧
    0 ≤ ttl ∧
    (ttl = 0 ↔ now = resetTime record).
Proof.
  intros Hw. unfold RedisStore.increment.
  destruct (RedisStore.client_get c now (RedisStore.redisKey key)) as [data|e]; [|done].
  simpl. unfold RedisStore.write_back.
  set (r := RedisStore.next_record now w data).
  destruct (RedisStore.client_setEx _ _ _ _ r) as [c0|e] eqn:Hset; [|done].
  simpl. intros [= <- <-].
  exists (Js.ceil_div (resetTime r - now) 1000). split; [done|].
  pose proof (ceil_div_bounds (resetTime r - now)) as Hb.
  pose proof (RedisFacts.next_record_not_ended now w data Hw) as Hge. fold r in Hge.
  split; [done|]. split; lia.
Qed.

(** A third hit 400 ms into a window that ends at 1000: TTL 1. *)
Lemma redis_ttl_is_rest_of_window_witness :
  let c := RedisStore.mkServer
             {[RedisStore.redisKey "ip1" := (mkRecord 2 1000, 1000)]} true in
  ∃ c', RedisStore.increment c 400 "ip1" 1000 = Js.Ok (mkRecord 3 1000, c') ∧
    ∃ ttl,
      RedisStore.client_setEx c 400 (RedisStore.redisKey "ip1") ttl (mkRecord 3 1000)
        = Js.Ok c' ∧
      resetTime (mkRecord 3 1000) - 400 ≤ 1000 * ttl
        < resetTime (mkRecord 3 1000) - 400 + 1000 ∧
      0 ≤ ttl ∧
      (ttl = 0 ↔ 400 = resetTime (mkRecord 3 1000)).
Proof.
  intros c. eexists. split; [reflexivity|].
  apply (redis_ttl_is_rest_of_window c _ 400 "ip1" 1000 (mkRecord 3 1000));
    [lia | reflexivity].
Defined.

(** X13.  What [RedisStore.increment] writes is what [RedisStore.get] reads
    back: on a server that keeps a value until its TTL has run out, a [get]
    for the key at any time before the window's end returns the record that
    [increment] returned, with the same [hits] and [resetTime].  Other keys
    read as before. *)
Theorem redis_get_after_increment (c c' : RedisStore.Server) (now : Z)
    (key : string) (w : Z) (record : WindowRecord) :
  RedisStore.increment c now key w = Js.Ok (record, c') →
  (∀ t, t < resetTime record → RedisStore.get c' t key = Js.Ok (Some record)) ∧
  (∀ t key', key' ≠ key → RedisStore.get c' t key' = RedisStore.get c t key').
Proof.
  unfold RedisStore.increment, RedisStore.write_back, RedisStore.get. simpl.
  unfold RedisStore.server_get at 1.
  destruct (RedisStore.reachable c) eqn:Hup; [|done].
  set (data := match RedisStore.db c !! RedisStore.redisKey key with
               | Some (v, expiresAt) =>
                   if bool_decide (now < expiresAt) then Js.Ok (Some v) else Js.Ok None
               | None => Js.Ok None
               end).
  assert (∃ d, data = Js.Ok d) as [d ->].
  { subst data. destruct (RedisStore.db c !! RedisStore.redisKey key) as [[v ex]|];
      [destruct (bool_decide (now < ex))|]; eauto. }
  simpl. unfold RedisStore.server_setEx. rewrite Hup. simpl.
  intros [= <- <-]. split.
  - intros t Ht. unfold RedisStore.server_get. simpl. rewrite lookup_insert_eq.
    rewrite bool_decide_eq_true_2; [done|].
    pose proof (ceil_div_bounds (resetTime (RedisStore.next_record now w d) - now)). lia.
  - intros t key' Hne. unfold RedisStore.server_get. simpl. rewrite Hup.
    rewrite lookup_insert_ne; [done|]. intros Heq. apply Hne.
    symmetry. by apply RedisFacts.redisKey_inj.
Qed.

Lemma redis_get_after_increment_witness :
  let c := RedisStore.mkServer
             {[RedisStore.redisKey "ip1" := (mkRecord 2 1000, 1000)]} true in
  ∃ c', RedisStore.increment c 400 "ip1" 1000 = Js.Ok (mkRecord 3 1000, c') ∧
        RedisStore.get c' 999 "ip1" = Js.Ok (Some (mkRecord 3 1000)).
Proof.
  intros c. eexists. split; [reflexivity|].
  refine (proj1 (redis_get_after_increment c _ 400 "ip1" 1000 (mkRecord 3 1000) eq_refl)
            999 _).
  simpl. lia.
Defined.

(** X14.  Calls of [RedisStore.increment] that run one after the other lose
    no update: on a reachable server without a record for the key, M calls
    made before the end of the window that the first opens leave a record
    of [hits = M], which [get] returns until the window ends. *)
Theorem redis_sequential_calls_are_counted (c : RedisStore.Server) (key : string)
    (w : Z) (now : Z) (ts : list Z) :
  RedisStore.reachable c = true →
  RedisStore.db c !! RedisStore.redisKey key = None →
  Forall (λ t, t < now + w) ts →
  ∃ c', Trace.redis_replay c key w (now :: ts) = Js.Ok c' ∧
        ∀ t, t < now + w →
          RedisStore.get c' t key
            = Js.Ok (Some (mkRecord (Z.of_nat (length (now :: ts))) (now + w))).
Proof.
  intros Hup Hdb Hts. simpl Trace.redis_replay.
  rewrite (RedisFacts.server_increment_absent c now key w Hup Hdb).
  set (c1 := RedisStore.mkServer _ _).
  destruct (RedisFacts.redis_replay_live c1 key w (mkRecord 1 (now + w))
              (now + 1000 * Js.ceil_div (now + w - now) 1000) ts)
    as (c' & e' & Hrun & Hup' & Hdb' & He');
    [done | apply lookup_insert_eq | | exact Hts |].
  - simpl. pose proof (ceil_div_bounds (now + w - now)). lia.
  - exists c'. split; [exact Hrun|]. intros t Ht.
    unfold RedisStore.get. simpl. unfold RedisStore.server_get.
    rewrite Hup', Hdb'. simpl in He'. rewrite bool_decide_eq_true_2 by lia.
    simpl. do 3 f_equal. lia.
Qed.

Lemma redis_sequential_calls_are_counted_witness :
  ∃ c', Trace.redis_replay (RedisStore.mkServer ∅ true) "ip1" 1000 [0; 5; 3; 999]
          = Js.Ok c' ∧
        ∀ t, t < 0 + 1000 →
          RedisStore.get c' t "ip1"
            = Js.Ok (Some (mkRecord (Z.of_nat (length [0; 5; 3; 999])) (0 + 1000))).
Proof.
  refine (redis_sequential_calls_are_counted (RedisStore.mkServer ∅ true) "ip1" 1000 0
            [5; 3; 999] eq_refl eq_refl _).
  repeat constructor; lia.
Defined.

(** ** After the window *)


